(** * Verification of the retrieval and answer post-processing pipeline

    Shallow embedding of [step3_rag_engine.py] (class [HongLouRAG]:
    [retrieve], [generate], [_init_prompts]) and of [app.py]
    ([clean_answer] and the query-submission block of [main]).

    Python strings are sequences of Unicode code points, so a [str] is a
    list of code points ([N]); [len], slicing, [strip], [replace],
    [split], [index], [endswith] and the one regular expression the code
    uses are modelled on that representation.  String literals are written
    in UTF-8 and decoded once by [u].

    The vector index and the language model are the two external services:
    they enter as the two function fields of [HongLouRAG], and either call
    may raise.  Output to the console ([print]) and the drawing of the page
    are left out; they do not touch the values the theorems speak about.

    Layout: the embedding ([PyStr], [Format], [Engine], [App]), the notions
    used in statements ([Props]), then the facts: [PyStrFacts] on the string
    operations, [Sanitizer] on [clean_answer], [Retriever] on [retrieve],
    [Prompt] on the prompt built by [generate], [Session] on the submission
    block of [main]. *)

From stdpp Require Import gmap strings list pretty.
From Stdlib Require Import ZArith NArith Ascii Lia Sorted.

Open Scope N_scope.

(* ===================================================================== *)
(** ** Python strings *)
(* ===================================================================== *)

Module PyStr.

(** A string is the list of its code points. *)
Abbreviation str := (list N).

(** *** Literals: UTF-8 decoding of a source literal *)

Fixpoint bytes_of (s : string) : list N :=
  match s with
  | EmptyString => []
  | String a s' => N_of_ascii a :: bytes_of s'
  end.

(** [need] continuation bytes are still expected for the code point
    whose high bits are accumulated in [acc]. *)
Fixpoint utf8_decode (need : nat) (acc : N) (bs : list N) : str :=
  match bs with
  | [] => []
  | b :: bs' =>
      match need with
      | O =>
          if b <? 128 then b :: utf8_decode 0 0 bs'
          else if b <? 224 then utf8_decode 1 (b - 192) bs'
          else if b <? 240 then utf8_decode 2 (b - 224) bs'
          else utf8_decode 3 (b - 240) bs'
      | S O => (acc * 64 + (b - 128)) :: utf8_decode 0 0 bs'
      | S k => utf8_decode k (acc * 64 + (b - 128)) bs'
      end
  end.

Definition u (s : string) : str := utf8_decode 0 0 (bytes_of s).

Definition NL : N := 10.

(** *** [str.isspace] on one code point

    CPython's [Py_UNICODE_ISSPACE], which both [str.strip()] and the
    regular-expression class [\s] (on [str] patterns) use. *)
Definition isspace (c : N) : bool :=
  ((9 <=? c) && (c <=? 13)) || ((28 <=? c) && (c <=? 32))
  || (c =? 133) || (c =? 160) || (c =? 5760)
  || ((8192 <=? c) && (c <=? 8202))
  || (c =? 8232) || (c =? 8233) || (c =? 8239) || (c =? 8287)
  || (c =? 12288).

(** *** [s.strip()] *)

Fixpoint lstrip (s : str) : str :=
  match s with
  | [] => []
  | c :: s' => if isspace c then lstrip s' else s
  end.

Fixpoint rstrip (s : str) : str :=
  match s with
  | [] => []
  | c :: s' =>
      match rstrip s' with
      | [] => if isspace c then [] else [c]
      | r => c :: r
      end
  end.

Definition strip (s : str) : str := rstrip (lstrip s).

(** *** [s.startswith(p)], [s.endswith(p)] *)

Fixpoint startswith (s p : str) {struct p} : bool :=
  match p with
  | [] => true
  | a :: p' =>
      match s with
      | [] => false
      | c :: s' => (c =? a) && startswith s' p'
      end
  end.

Definition endswith (s p : str) : bool :=
  startswith (reverse s) (reverse p).

(** *** [s.index(sub)] and [sub in s]

    [index] is [None] where Python raises [ValueError]. *)
Fixpoint index (s sub : str) : option nat :=
  if startswith s sub then Some O
  else match s with
       | [] => None
       | _ :: s' => S <$> index s' sub
       end.

Definition str_in (sub s : str) : bool :=
  match index s sub with Some _ => true | None => false end.

(** *** Left-to-right scanning with non-overlapping matches

    [scan m skip s] walks [s] from the left.  [m t = Some (n, out)] means
    that a match of [S n] characters starts at the head of [t] and is to
    be replaced by [out]; scanning resumes behind the match ([skip]
    counts the characters of the current match still to be passed).
    Where nothing matches the character is copied.  This is the loop
    shared by [str.replace] and [re.sub]. *)
Fixpoint scan (m : str -> option (nat * str)) (skip : nat) (s : str) : str :=
  match s with
  | [] => []
  | c :: s' =>
      match skip with
      | S k => scan m k s'
      | O =>
          match m s with
          | Some (n, out) => out ++ scan m n s'
          | None => c :: scan m 0 s'
          end
      end
  end.

(** *** [s.replace(old, new)] *)

Definition replace_match (old new : str) (t : str) : option (nat * str) :=
  if startswith t old then Some (pred (length old), new) else None.

Definition replace (s old new : str) : str :=
  match old with
  | [] => new ++ concat (map (fun c => c :: new) s)
  | _ :: _ => scan (replace_match old new) 0 s
  end.

(** *** [s.split(sep)] for a non-empty separator

    [cur] holds the characters of the current part, last one first. *)
Fixpoint split_aux (sep : str) (skip : nat) (cur : str) (s : str) : list str :=
  match s with
  | [] => [reverse cur]
  | c :: s' =>
      match skip with
      | S k => split_aux sep k cur s'
      | O =>
          if startswith s sep
          then reverse cur :: split_aux sep (pred (length sep)) [] s'
          else split_aux sep 0 (c :: cur) s'
      end
  end.

Definition split (s sep : str) : list str := split_aux sep 0 [] s.

(** [parts[-1]] of a non-empty list. *)
Definition last_part (parts : list str) : str := default [] (last parts).

(** *** [sep.join(parts)] *)
Fixpoint join (sep : str) (parts : list str) : str :=
  match parts with
  | [] => []
  | [p] => p
  | p :: rest => p ++ sep ++ join sep rest
  end.

(** *** [re.sub(r'\n\s*\n+', '\n\n', s)]

    [match_ws_nl t] runs the tail [\s*\n+] of the pattern on a prefix of
    [t] and gives the number of characters it consumes.  The star is
    greedy: it first takes one more whitespace character and tries the
    rest; only when that fails does it stop and let [\n+] take the
    longest run of newlines at this place. *)
Fixpoint newline_run (t : str) : nat :=
  match t with
  | c :: t' => if c =? NL then S (newline_run t') else O
  | [] => O
  end.

Fixpoint match_ws_nl (t : str) : option nat :=
  match t with
  | [] => None
  | c :: t' =>
      let stop := if c =? NL then Some (S (newline_run t')) else None in
      if isspace c then
        match match_ws_nl t' with
        | Some n => Some (S n)
        | None => stop
        end
      else stop
  end.

Definition blank_lines_match (t : str) : option (nat * str) :=
  match t with
  | c :: t' =>
      if c =? NL then (fun n => (n, [NL; NL])) <$> match_ws_nl t' else None
  | [] => None
  end.

Definition collapse_blank_lines (s : str) : str := scan blank_lines_match 0 s.

End PyStr.

Import PyStr.

(* ===================================================================== *)
(** ** Exceptions and fallible calls *)
(* ===================================================================== *)

(** An exception is known to the program only through [str(e)]. *)
Inductive exn := Exception (msg : str).

Definition exn_str (e : exn) : str := match e with Exception msg => msg end.

Inductive result (A : Type) : Type :=
| Ok (a : A)
| Raise (e : exn).
Arguments Ok {A} a.
Arguments Raise {A} e.

#[global] Instance result_ret : MRet result := fun A a => Ok a.
#[global] Instance result_bind : MBind result :=
  fun A B f m => match m with Ok a => f a | Raise e => Raise e end.
#[global] Instance result_fmap : FMap result :=
  fun A B f m => match m with Ok a => Ok (f a) | Raise e => Raise e end.

(** [str(KeyError(k))] is the [repr] of the key. *)
Definition KeyError (k : string) : exn := Exception (u "'" ++ u k ++ u "'").
Definition ValueError (msg : string) : exn := Exception (u msg).

(* ===================================================================== *)
(** ** Values held in document metadata *)
(* ===================================================================== *)

Inductive pyval :=
| VInt (z : Z)
| VStr (s : str).

#[global] Instance pyval_eq_dec : EqDecision pyval.
Proof. solve_decision. Defined.

#[global] Instance pyval_countable : Countable pyval :=
  inj_countable'
    (fun v => match v with VInt z => inl z | VStr s => inr s end)
    (fun x => match x with inl z => VInt z | inr s => VStr s end)
    (fun v => match v with VInt _ => eq_refl | VStr _ => eq_refl end).

(** [str(v)], as an f-string renders a value. *)
Definition py_str (v : pyval) : str :=
  match v with
  | VInt z => u (pretty z)
  | VStr s => s
  end.

(** [d.get(key, default)] *)
Definition dict_get (d : gmap string pyval) (key : string) (dflt : pyval) : pyval :=
  default dflt (d !! key).

(** langchain's [Document]. *)
Record Document := mkDocument {
  page_content : str;
  metadata : gmap string pyval
}.

(* ===================================================================== *)
(** ** [str.format] with keyword arguments *)
(* ===================================================================== *)

Module Format.

Definition LBRACE : N := 123.
Definition RBRACE : N := 125.

(** Where the scanner is: in literal text, just behind an opening or a
    closing brace, or inside a replacement field whose name so far is
    [name]. *)
Inductive mode :=
| Text
| Opened
| Closed
| Field (name : str).

Definition lookup_kw (kw : list (str * str)) (name : str) : result str :=
  match list_find (fun p => p.1 = name) kw with
  | Some (_, (_, v)) => Ok v
  | None => Raise (Exception (u "'" ++ name ++ u "'"))
  end.

(** Replacement fields are plain names, as in [rag_template]; substituted
    values are not scanned again. *)
Fixpoint format_aux (kw : list (str * str)) (md : mode) (t : str) : result str :=
  match t with
  | [] =>
      match md with
      | Text => Ok []
      | Closed => Raise (ValueError "Single '}' encountered in format string")
      | Opened => Raise (ValueError "Single '{' encountered in format string")
      | Field _ => Raise (ValueError "expected '}' before end of string")
      end
  | c :: t' =>
      match md with
      | Text =>
          if c =? LBRACE then format_aux kw Opened t'
          else if c =? RBRACE then format_aux kw Closed t'
          else rest ← format_aux kw Text t'; Ok (c :: rest)
      | Opened =>
          if c =? LBRACE then rest ← format_aux kw Text t'; Ok (LBRACE :: rest)
          else if c =? RBRACE then
            Raise (Exception
              (u "Replacement index 0 out of range for positional args tuple"))
          else format_aux kw (Field [c]) t'
      | Closed =>
          if c =? RBRACE then rest ← format_aux kw Text t'; Ok (RBRACE :: rest)
          else Raise (ValueError "Single '}' encountered in format string")
      | Field name =>
          if c =? RBRACE then
            v ← lookup_kw kw name;
            rest ← format_aux kw Text t'; Ok (v ++ rest)
          else format_aux kw (Field (name ++ [c])) t'
      end
  end.

Definition format (template : str) (kw : list (str * str)) : result str :=
  format_aux kw Text template.

End Format.

(* ===================================================================== *)
(** ** step3_rag_engine.py: class HongLouRAG *)
(* ===================================================================== *)

Module Engine.

(** The two external services the object holds: the vector index
    ([self.vectorstore.similarity_search(query, k=k)]) and the text
    generation pipeline ([self.llm(prompt)[0]['generated_text']]).
    Either call may raise. *)
Record HongLouRAG := mkRAG {
  similarity_search : str -> Z -> result (list Document);
  llm : str -> result str
}.

Definition QUOTE : N := 34.

(** [_init_prompts]: [self.rag_template]. *)
Definition rag_template : str := Eval vm_compute in
  u "你是一位精通《红楼梦》的资深红学研究者，擅长文本细读与脂砚斋评注解读。

【任务】基于以下检索到的原文与评注，回答用户的问题。回答要求：
1. 必须引用具体回目（如" ++ [QUOTE] ++ u "见于第三回" ++ [QUOTE] ++ u "）
2. 结合脂砚斋评注（如有）分析深层含义
3. 指出艺术手法（草蛇灰线、春秋笔法等）

【检索资料】
{context}

【用户问题】
{question}

【红学分析】".

(** *** retrieve *)

(** The state of the loop: [seen_chapters] and [unique_docs]. *)
Definition dedup_state : Type := gset pyval * list Document.

Definition chapter_of (doc : Document) : pyval :=
  dict_get (metadata doc) "chapter" (VInt 0).

(** One pass through the body of [for doc in docs]. *)
Definition dedup_step (st : dedup_state) (doc : Document) : dedup_state :=
  let '(seen_chapters, unique_docs) := st in
  let ch := chapter_of doc in
  if decide (ch ∈ seen_chapters) then st
  else ({[ch]} ∪ seen_chapters, unique_docs ++ [doc]).

Definition dedup (docs : list Document) : list Document :=
  (foldl dedup_step (∅, []) docs).2.

Definition retrieve (self : HongLouRAG) (query : str) (k : Z) : result (list Document) :=
  docs ← similarity_search self query k;
  let unique_docs := dedup docs in
  Ok (take 3 unique_docs).

(** *** generate *)

(** The dictionary [generate] returns: the four-key answer or the
    one-key error. *)
Inductive gen_result :=
| GenAnswer (query answer : str) (sources : list Document) (context : str)
| GenError (error : str).

(** The f-string of one passage; [i] is the 1-based position. *)
Definition context_part (i : nat) (doc : Document) : str :=
  let source := dict_get (metadata doc) "type" (VStr (u "正文")) in
  let chapter := dict_get (metadata doc) "chapter_title" (VStr (u "unknown")) in
  let content := take 300 (page_content doc) in
  u "[" ++ u (pretty i) ++ u "] " ++ py_str chapter ++ u "（" ++ py_str source
    ++ u "）：" ++ content ++ u "...".

Definition context_parts (docs : list Document) : list str :=
  imap (fun i doc => context_part (S i) doc) docs.

Definition build_context (docs : list Document) : str :=
  join (u "

") (context_parts docs).

Definition build_prompt (context query : str) : result str :=
  Format.format rag_template [(u "context", context); (u "question", query)].

Definition generate (self : HongLouRAG) (query : str) : result gen_result :=
  docs ← retrieve self query 4;
  let context := build_context docs in
  prompt ← build_prompt context query;
  match llm self prompt with
  | Ok response =>
      let response :=
        if str_in prompt response then strip (replace response prompt [])
        else response in
      Ok (GenAnswer query response docs context)
  | Raise e => Ok (GenError (exn_str e))
  end.

End Engine.

(* ===================================================================== *)
(** ** app.py: the answer sanitizer and the submission block of main *)
(* ===================================================================== *)

Module App.

Import Engine.

Definition END_MARKER : str := Eval vm_compute in u "【结束】".
Definition ANSWER_MARKER : str := Eval vm_compute in u "【回答】".

Definition markers : list str := Eval vm_compute in
  [u "【回答】"; u "【结束】"; u "专家解读："; u "【任务】";
   u "【检索资料】"; u "【用户问题】"; u "【红学分析】"].

Definition closing_phrases : list str := Eval vm_compute in
  [u "如有其他问题或需要进一步探讨，请随时告知。";
   u "如需进一步探讨，请随时告知。";
   u "希望您满意。";
   u "希望对您有所帮助。";
   u "以上回答严格遵循了您的要求。"].

Definition SUMMARY_SUFFIX : str := Eval vm_compute in u "以上".

(** Strategy 1: [if '【结束】' in raw_answer:
    raw_answer = raw_answer[:raw_answer.index('【结束】')].strip()].
    The membership test succeeds exactly when [index] does. *)
Definition truncate_at_end (raw_answer : str) : str :=
  match index raw_answer END_MARKER with
  | Some i => strip (take i raw_answer)
  | None => raw_answer
  end.

(** Strategy 2: [if '【回答】' in raw_answer: parts = ...split('【回答】');
    if len(parts) > 1: raw_answer = parts[-1].strip()]. *)
Definition keep_last_answer (raw_answer : str) : str :=
  if str_in ANSWER_MARKER raw_answer then
    let parts := split raw_answer ANSWER_MARKER in
    if (1 <? length parts)%nat then strip (last_part parts) else raw_answer
  else raw_answer.

(** The loop body shared by strategies 3 and 5:
    [raw_answer = raw_answer.replace(x, '').strip()]. *)
Definition remove_token (raw_answer x : str) : str :=
  strip (replace raw_answer x []).

(** Strategy 3. *)
Definition remove_markers (raw_answer : str) : str :=
  foldl remove_token raw_answer markers.

(** Strategy 4: [if raw_answer.endswith('以上'):
    raw_answer = raw_answer[:-2].strip()]. *)
Definition strip_summary (raw_answer : str) : str :=
  if endswith raw_answer SUMMARY_SUFFIX
  then strip (take (length raw_answer - 2)%nat raw_answer)
  else raw_answer.

(** Strategy 5. *)
Definition remove_closings (raw_answer : str) : str :=
  foldl remove_token raw_answer closing_phrases.

Definition clean_answer (raw_answer : str) : str :=
  match raw_answer with
  | [] => raw_answer
  | _ :: _ =>
      let raw_answer := truncate_at_end raw_answer in
      let raw_answer := keep_last_answer raw_answer in
      let raw_answer := remove_markers raw_answer in
      let raw_answer := strip_summary raw_answer in
      let raw_answer := remove_closings raw_answer in
      let raw_answer := collapse_blank_lines raw_answer in
      strip raw_answer
  end.

(** *** Session state *)

Inductive Role := User | Assistant.

(** One entry of a turn's ['sources'] list. *)
Record Source := mkSource {
  src_chapter : pyval;
  src_type : pyval;
  src_content : str
}.

(** A turn; [msg_sources] is [None] when the dictionary has no
    ['sources'] key. *)
Record Message := mkMessage {
  role : Role;
  content : str;
  msg_sources : option (list Source)
}.

Record SessionState := mkSession {
  messages : list Message;
  quick_question : option str
}.

(** How the script run ends after the block: [st.rerun()] leaves the run
    at once (it is raised as a control exception that is not an
    [Exception], so the handler below does not see it); otherwise the
    script goes on to the buttons. *)
Inductive control := Rerun | Continue.

Definition source_of (d : Document) : Source :=
  {| src_chapter := dict_get (metadata d) "chapter_title" (VStr (u "未知"));
     src_type := dict_get (metadata d) "type" (VStr (u "正文"));
     src_content := page_content d |}.

(** Lines 253-255: the fallback on an implausibly short cleaned text. *)
Definition with_fallback (raw_answer cleaned_answer : str) : str :=
  if (length cleaned_answer <? 50)%nat && (100 <? length raw_answer)%nat
  then take 500 raw_answer
  else cleaned_answer.

(** The body of [try:] up to the message that is appended.
    [result['answer']] raises [KeyError] on the error dictionary. *)
Definition answer_turn (rag : HongLouRAG) (user_input : str) : result Message :=
  res ← generate rag user_input;
  match res with
  | GenAnswer _ raw_answer sources _ =>
      let cleaned_answer := clean_answer raw_answer in
      let cleaned_answer := with_fallback raw_answer cleaned_answer in
      Ok {| role := Assistant;
            content := cleaned_answer;
            msg_sources := Some (source_of <$> sources) |}
  | GenError _ => Raise (KeyError "answer")
  end.

Definition apology (e : exn) : Message :=
  {| role := Assistant;
     content := u "抱歉，查阅典籍时遇到阻碍：" ++ exn_str e;
     msg_sources := None |}.

Definition truthy (s : str) : bool :=
  match s with [] => false | _ :: _ => true end.

(** [if submit and user_input:] ... with [k_value], the value of the
    slider read earlier in the same run of [main]. *)
Definition handle_submit (rag : HongLouRAG) (k_value : Z) (submit : bool)
    (user_input : str) (st : SessionState) : SessionState * control :=
  if submit && truthy user_input then
    let msgs := messages st ++
      [{| role := User; content := user_input; msg_sources := None |}] in
    match answer_turn rag user_input with
    | Ok m =>
        ({| messages := msgs ++ [m]; quick_question := None |}, Rerun)
    | Raise e =>
        ({| messages := msgs ++ [apology e]; quick_question := None |}, Continue)
    end
  else (st, Continue).

End App.

(* ===================================================================== *)
(** ** app.py: what the page shows, the export and the clear button *)
(* ===================================================================== *)

Module View.

Import Engine App.

Definition DI : N := Eval vm_compute in default 0 (head (u "第")).
Definition HUI : N := Eval vm_compute in default 0 (head (u "回")).
Definition numerals : str := Eval vm_compute in u "一二三四五六七八九十百千".

Definition is_numeral (c : N) : bool := existsb (N.eqb c) numerals.

(** [[一二三四五六七八九十百千]*回] on a prefix of [t], the star greedy: it
    takes one more numeral first and stops only when the rest fails. *)
Fixpoint match_numerals_hui (t : str) : option nat :=
  match t with
  | [] => None
  | c :: t' =>
      let stop := if c =? HUI then Some 1%nat else None in
      if is_numeral c then
        match match_numerals_hui t' with
        | Some n => Some (S n)
        | None => stop
        end
      else stop
  end.

(** The pattern [第[一二三四五六七八九十百千]+回] at the head of [t]: the
    number of characters it matches. *)
Definition match_chapter_label (t : str) : option nat :=
  match t with
  | c :: d :: t' =>
      if (c =? DI) && is_numeral d
      then (fun n => S (S n)) <$> match_numerals_hui t'
      else None
  | _ => None
  end.

(** [re.search]: the match at the leftmost position that has one. *)
Fixpoint search_chapter_label (t : str) : option str :=
  match match_chapter_label t with
  | Some n => Some (take n t)
  | None =>
      match t with
      | [] => None
      | _ :: t' => search_chapter_label t'
      end
  end.

Definition clean_chapter_title (title : str) : str :=
  match search_chapter_label title with
  | Some label => label
  | None => replace (replace (replace title (u "%{{") []) (u "}}") []) (u "}{") []
  end.

(** The text of a turn as the history loop puts it on the page: an
    assistant turn goes through [clean_answer] once more. *)
Definition shown_text (msg : Message) : str :=
  match role msg with
  | User => content msg
  | Assistant => clean_answer (content msg)
  end.

(** One pass of the export loop: [export_text += f"问：...\n\n"] or
    [f"答：{clean_answer(...)}\n\n"]. *)
Definition export_block (msg : Message) : str :=
  match role msg with
  | User => u "问：" ++ content msg ++ [NL; NL]
  | Assistant => u "答：" ++ clean_answer (content msg) ++ [NL; NL]
  end.

Definition export_text (msgs : list Message) : str :=
  foldl (fun export_text msg => export_text ++ export_block msg) [] msgs.

(** What one run of the script does to the session: the form is handled
    by [handle_submit]; the clear button empties the history. *)
Inductive action :=
| Ask (rag : HongLouRAG) (k_value : Z) (submit : bool) (user_input : str)
| ClearHistory.

Definition run_action (st : SessionState) (a : action) : SessionState :=
  match a with
  | Ask rag k_value submit user_input =>
      (handle_submit rag k_value submit user_input st).1
  | ClearHistory => {| messages := []; quick_question := quick_question st |}
  end.

(** [if 'messages' not in st.session_state: st.session_state.messages = []] *)
Definition initial_session : SessionState :=
  {| messages := []; quick_question := None |}.

Definition run_session (actions : list action) : SessionState :=
  foldl run_action initial_session actions.

End View.

(* ===================================================================== *)
(** ** step2_vectorize.py: building the index in batches *)
(* ===================================================================== *)

Module Vectorize.

(** langchain's FAISS store as [build_index] uses it:
    [FAISS.from_documents(batch, ...)] makes a store from a first batch and
    [vectorstore.add_documents(batch)] adds a batch to it. *)
Record VectorStore (store : Type) := mkVectorStore {
  from_documents : list Document -> store;
  add_documents : store -> list Document -> store
}.
Arguments from_documents {store} _ _.
Arguments add_documents {store} _ _ _.

(** [range(0, stop, step)] for a positive [step]: [count] values from
    [start] on, [step] apart. *)
Fixpoint range_from (start step count : nat) : list nat :=
  match count with
  | O => []
  | S count' => start :: range_from (start + step) step count'
  end.

Definition py_range (stop step : nat) : list nat :=
  range_from 0 step ((stop + step - 1) / step).

Definition batch_size : nat := 500.

(** One pass of the loop: [batch = documents[i:i+batch_size]], then the
    first batch makes the store and every later one is added to it. *)
Definition build_step {store} (faiss : VectorStore store)
    (documents : list Document) (vectorstore : option store) (i : nat)
    : option store :=
  let batch := take batch_size (drop i documents) in
  match vectorstore with
  | None => Some (from_documents faiss batch)
  | Some vs => Some (add_documents faiss vs batch)
  end.

(** [vectorstore.save_local(...)] behind the loop raises [AttributeError]
    when [vectorstore] is still [None]. *)
Definition build_index {store} (faiss : VectorStore store)
    (documents : list Document) : result store :=
  match foldl (build_step faiss documents) None
          (py_range (length documents) batch_size) with
  | Some vs => Ok vs
  | None =>
      Raise (Exception (u "'NoneType' object has no attribute 'save_local'"))
  end.

End Vectorize.

(* ===================================================================== *)
(** ** step1_extract.py: numerals and paragraphs *)
(* ===================================================================== *)

Module Extract.

(** The code point of a one-character literal. *)
Definition ch (s : string) : N := default 0 (head (u s)).

(** [num_map] of [chinese_to_number]; the keys are pairwise different. *)
Definition num_map : list (N * Z) := Eval vm_compute in
  [(ch "一", 1); (ch "二", 2); (ch "三", 3); (ch "四", 4); (ch "五", 5);
   (ch "六", 6); (ch "七", 7); (ch "八", 8); (ch "九", 9); (ch "十", 10);
   (ch "百", 100); (ch "千", 1000); (ch "零", 0); (ch "〇", 0)]%Z.

(** [num_map[char]], [None] where [char in num_map] is false. *)
Definition num_map_get (char : N) : option Z :=
  (fun p => p.2.2) <$> list_find (fun p => p.1 = char) num_map.

(** One pass of the loop over the characters; the state is
    [(result, temp)]. *)
Definition number_step (st : Z * Z) (char : N) : Z * Z :=
  let '(result, temp) := st in
  match num_map_get char with
  | Some n =>
      if (10 <=? n)%Z then
        let temp := if (temp =? 0)%Z then 1%Z else temp in
        ((result + temp * n)%Z, 0%Z)
      else
        (result, if (0 <? temp)%Z then (temp * 10 + n)%Z else n)
  | None => st
  end.

Definition chinese_to_number (chinese : str) : Z :=
  let '(result, temp) := foldl number_step (0%Z, 0%Z) chinese in
  let result := (result + temp)%Z in
  if (0 <? result)%Z then result else 0%Z.

Definition FULL_STOP : str := Eval vm_compute in u "。".

(** One pass of the loop over the lines; the state is
    [(paragraphs, current)]. *)
Definition paragraph_step (st : list str * str) (line : str) : list str * str :=
  let '(paragraphs, current) := st in
  let line := strip line in
  match line with
  | [] =>
      match current with
      | [] => st
      | _ :: _ => (paragraphs ++ [current], [])
      end
  | _ :: _ =>
      if (200 <? length current)%nat && endswith current FULL_STOP
      then (paragraphs ++ [current], line)
      else (paragraphs, current ++ line)
  end.

Definition split_paragraphs (text : str) : list str :=
  let lines := split text [NL] in
  let '(paragraphs, current) := foldl paragraph_step ([], []) lines in
  match current with
  | [] => paragraphs
  | _ :: _ => paragraphs ++ [current]
  end.

End Extract.

(* ===================================================================== *)
(** ** step1_extract.py and step2_vectorize.py: chapter data and records *)
(* ===================================================================== *)

Module Records.

(** [chapter_info]: the dictionary with the keys ['num'] and ['title']. *)
Record chapter_info := mkInfo {
  num : Z;
  title : str
}.

(** One line of the JSONL file: ['id'], ['content'], ['metadata']. *)
Record DataRecord := mkRecord {
  rec_id : str;
  rec_content : str;
  rec_metadata : gmap string pyval
}.

Definition TYPE_BODY : str := Eval vm_compute in u "正文".
Definition TYPE_COMMENT : str := Eval vm_compute in u "脂评".
Definition CHAPTER_WORD : str := Eval vm_compute in u "chapter".
Definition UNKNOWN_TITLE : str := Eval vm_compute in u "未知回目".

Section Decimal.

(** [unicodedata.decimal]: the digit value of the characters of category
    Nd, which are the characters [\d] matches and [int] reads. *)
Variable decimal : N -> option Z.

(** [(\d+)] at the head of [t]: the values of the longest run of digits. *)
Fixpoint digit_run (t : str) : list Z :=
  match t with
  | [] => []
  | c :: t' =>
      match decimal c with
      | Some d => d :: digit_run t'
      | None => []
      end
  end.

(** [int(...)] of a run of digits. *)
Definition int_of_digits (ds : list Z) : Z :=
  foldl (fun a d => (a * 10 + d)%Z) 0%Z ds.

(** [re.search(r'chapter(\d+)', filename)]: group 1 of the match at the
    leftmost position that has one. *)
Fixpoint search_chapter_digits (filename : str) : option (list Z) :=
  let here :=
    if startswith filename CHAPTER_WORD
    then digit_run (drop (length CHAPTER_WORD) filename)
    else [] in
  match here with
  | _ :: _ => Some here
  | [] =>
      match filename with
      | [] => None
      | _ :: rest => search_chapter_digits rest
      end
  end.

(** ['第' in line and '回' in line] *)
Definition names_chapter (line : str) : bool :=
  str_in [View.DI] line && str_in [View.HUI] line.

Definition extract_chapter_info (content filename : str) : chapter_info :=
  match search_chapter_digits filename with
  | Some ds =>
      let num := int_of_digits ds in
      let lines := take 10 (split content [NL]) in
      match List.find names_chapter lines with
      | Some line => {| num := num; title := strip line |}
      | None =>
          {| num := num; title := [View.DI] ++ py_str (VInt num) ++ [View.HUI] |}
      end
  | None => {| num := 0; title := UNKNOWN_TITLE |}
  end.

End Decimal.

(** [f"{n:03d}"]: at least three characters, zeros in front, the sign
    first. *)
Definition format_03d (n : Z) : str :=
  let zfill width s := replicate (width - length s) 48 ++ s in
  if (n <? 0)%Z then u "-" ++ zfill 2%nat (u (pretty (- n)%Z))
  else zfill 3%nat (u (pretty n)).

Definition record_metadata (info : chapter_info) (type file_name : str)
    : gmap string pyval :=
  {[ "chapter" := VInt (num info);
     "chapter_title" := VStr (title info);
     "type" := VStr type;
     "source_file" := VStr file_name ]}.

(** The two loops of [parse_single_file] over the paragraphs of the body
    text and over the comments, which the text stages in front of them
    deliver: entries whose stripped text is too short are passed over. *)
Definition body_record (info : chapter_info) (file_name : str)
    (idx : nat) (para : str) : option DataRecord :=
  if (length (strip para) <? 20)%nat then None
  else Some {| rec_id := format_03d (num info) ++ u "-" ++ format_03d (Z.of_nat idx);
               rec_content := strip para;
               rec_metadata := record_metadata info TYPE_BODY file_name |}.

Definition comment_record (info : chapter_info) (file_name : str)
    (idx : nat) (comment : str) : option DataRecord :=
  if (length (strip comment) <? 5)%nat then None
  else Some {| rec_id := format_03d (num info) ++ u "-z-" ++ format_03d (Z.of_nat idx);
               rec_content := strip comment;
               rec_metadata := record_metadata info TYPE_COMMENT file_name |}.

Definition build_documents (info : chapter_info) (file_name : str)
    (paragraphs comments : list str) : list DataRecord :=
  omap id (imap (body_record info file_name) paragraphs)
  ++ omap id (imap (comment_record info file_name) comments).

(** [load_data] on one parsed line: a comment gets the tag in front of its
    text, the metadata go over as they are.  [data['metadata']['type']]
    raises [KeyError] when the key is missing. *)
Definition load_document (data : DataRecord) : result Document :=
  match rec_metadata data !! "type" with
  | None => Raise (KeyError "type")
  | Some type =>
      let content :=
        if decide (type = VStr TYPE_COMMENT)
        then u "[脂评] " ++ rec_content data
        else rec_content data in
      Ok (mkDocument content (rec_metadata data))
  end.

End Records.

(* ===================================================================== *)
(** ** start.py: the interpreter check *)
(* ===================================================================== *)

Module Launcher.

(** [check_python] on the value of [sys.executable]: [None] where the
    function returns [None]. *)
Definition check_python (executable : str) : option str :=
  if endswith executable (u "python.exe") || endswith executable (u "python")
  then Some executable
  else None.

End Launcher.

(* ===================================================================== *)
(** ** Notions used in the statements *)
(* ===================================================================== *)

Module Props.

Import App.

(** A step that returns its input or something strictly shorter. *)
Definition shrinks (f : str -> str) : Prop :=
  forall s, f s = s \/ (length (f s) < length s)%nat.

(** The first character of a left-stripped text is not white space. *)
Definition head_solid (s : str) : Prop :=
  match s with [] => True | c :: _ => isspace c = false end.

(** A matcher whose replacement is never longer than the match, and is
    the matched text itself when it is as long. *)
Definition contracting (m : str -> option (nat * str)) : Prop :=
  forall t n out, m t = Some (n, out) ->
    (n < length t)%nat /\ (length out <= S n)%nat /\
    ((length out = S n)%nat -> out = take (S n) t).

(** Texts the substitution leaves alone. *)
Definition collapsed (s : str) : Prop := collapse_blank_lines s = s.

(** Strategies 2 to 5, the blank-line pass and the final [strip]: what
    runs behind strategy 1. *)
Definition after_truncation (s : str) : str :=
  strip (collapse_blank_lines
    (remove_closings (strip_summary (remove_markers (keep_last_answer s))))).

(** A text that carries no residue for the sanitizer: none of the marker
    tokens, none of the closing phrases, no trailing summary fragment. *)
Definition residue_free (y : str) : Prop :=
  (forall x, x ∈ markers -> str_in x y = false) /\
  (forall x, x ∈ closing_phrases -> str_in x y = false) /\
  endswith y SUMMARY_SUFFIX = false.

(** The three literal pieces of [rag_template] around its two fields. *)
Definition prompt_head : str := Eval vm_compute in
  u "你是一位精通《红楼梦》的资深红学研究者，擅长文本细读与脂砚斋评注解读。

【任务】基于以下检索到的原文与评注，回答用户的问题。回答要求：
1. 必须引用具体回目（如" ++ [Engine.QUOTE] ++ u "见于第三回" ++ [Engine.QUOTE] ++ u "）
2. 结合脂砚斋评注（如有）分析深层含义
3. 指出艺术手法（草蛇灰线、春秋笔法等）

【检索资料】
".

Definition prompt_mid : str := Eval vm_compute in
  u "

【用户问题】
".

Definition prompt_tail : str := Eval vm_compute in
  u "

【红学分析】".

(** What [generate] does with the reply of the model. *)
Definition finish_generate (query prompt : str) (docs : list Document)
    (context : str) (reply : result str) : result Engine.gen_result :=
  match reply with
  | Ok response =>
      Ok (Engine.GenAnswer query
            (if str_in prompt response then strip (replace response prompt [])
             else response)
            docs context)
  | Raise e => Ok (Engine.GenError (exn_str e))
  end.

(** A chapter label as [clean_chapter_title] looks for it: 第, one or more
    of the numerals 一 to 千, 回. *)
Definition chapter_label (m : str) : Prop :=
  exists ns, m = [View.DI] ++ ns ++ [View.HUI] /\ ns <> [] /\
             Forall (fun c => View.is_numeral c = true) ns.

(** A history made of questions, each followed by its answer turn. *)
Definition question_answer_pairs (msgs : list Message) (turns : list (str * Message)) : Prop :=
  msgs = turns ≫= (fun qa => [mkMessage User qa.1 None; qa.2]) /\
  Forall (fun qa => role qa.2 = Assistant) turns.


(** What a store holds, and how the two operations of the library change
    it: the assumption on the library under which [build_index] is read. *)
Record store_laws {store : Type} (faiss : Vectorize.VectorStore store)
    (stored : store -> list Document) : Prop := mkStoreLaws {
  stored_from : forall batch,
    stored (Vectorize.from_documents faiss batch) = batch;
  stored_add : forall vs batch,
    stored (Vectorize.add_documents faiss vs batch) = stored vs ++ batch
}.


(** The usual way of writing a number from 1 to 9999 in Chinese numerals:
    each non-zero digit with its unit, one 零 for a gap, and 十 alone for
    the tens of 10 to 19.  This is the notation [chinese_to_number] is
    meant to read; it is not part of the program. *)
Definition standard_numeral (n : nat) : str :=
  let digit d := nth d (u "零一二三四五六七八九") 0 in
  let q := (n / 1000)%nat in
  let b := (n / 100 mod 10)%nat in
  let s := (n / 10 mod 10)%nat in
  let g := (n mod 10)%nat in
  (if (q =? 0)%nat then [] else [digit q; Extract.ch "千"])
  ++ (if (b =? 0)%nat
      then (if negb (q =? 0)%nat && negb ((s =? 0)%nat && (g =? 0)%nat)
            then [Extract.ch "零"] else [])
      else [digit b; Extract.ch "百"])
  ++ (if (s =? 0)%nat
      then (if negb (b =? 0)%nat && negb (g =? 0)%nat
            then [Extract.ch "零"] else [])
      else if (s =? 1)%nat && (q =? 0)%nat && (b =? 0)%nat
           then [Extract.ch "十"]
           else [digit s; Extract.ch "十"])
  ++ (if (g =? 0)%nat then [] else [digit g]).

(** The value of a digit character (0 for any other character). *)
Definition digit_value (c : N) : Z := default 0%Z (Extract.num_map_get c).

(** A character that stands for a digit from 0 to 9 in [num_map]. *)
Definition is_digit_char (c : N) : Prop :=
  exists n, Extract.num_map_get c = Some n /\ (n < 10)%Z.

(** A paragraph as [split_paragraphs] delivers it: not empty, without a
    line break, without white space at either end. *)
Definition tidy_paragraph (p : str) : Prop :=
  p <> [] /\ (NL ∉ p) /\ strip p = p.


(** The ASCII digits of the table of decimal digits. *)
Definition ascii_decimal (c : N) : option Z :=
  if (48 <=? c) && (c <=? 57) then Some (Z.of_N (c - 48)) else None.

(** The candidate at rank [i] is the first one of its chapter number: no
    candidate in front of it has that number. *)
Definition first_of_chapter (docs : list Document) (i : nat) : Prop :=
  exists d, docs !! i = Some d /\
            Engine.chapter_of d ∉ Engine.chapter_of <$> take i docs.

(** The text an f-string prints for a metadata field: the string itself,
    a number in decimal, the default when the key is missing. *)
Definition field_text (field : option pyval) (dflt : str) : str :=
  match field with
  | Some (VStr s) => s
  | Some (VInt z) => u (pretty z)
  | None => dflt
  end.

End Props.

(* ===================================================================== *)
(** ** Facts about the string operations *)
(* ===================================================================== *)

Module PyStrFacts.

Import Props.

Lemma shrinks_le f s : shrinks f -> (length (f s) <= length s)%nat.
Proof. intros Hf. destruct (Hf s) as [-> | H]; lia. Qed.

Lemma shrinks_compose f g :
  shrinks f -> shrinks g -> shrinks (fun s => g (f s)).
Proof.
  intros Hf Hg s. destruct (Hf s) as [Ef | Lf].
  - rewrite Ef. apply Hg.
  - right. pose proof (shrinks_le g (f s) Hg). lia.
Qed.

(** A composition of shrinking steps fixes [s] only if the first one does. *)
Lemma shrinks_fix_first f g s :
  shrinks f -> shrinks g -> g (f s) = s -> f s = s.
Proof.
  intros Hf Hg E. destruct (Hf s) as [Ef | Lf]; [done |].
  pose proof (shrinks_le g (f s) Hg) as Hle. rewrite E in Hle. lia.
Qed.

Lemma shrinks_foldl (step : str -> str -> str) (xs : list str) :
  (forall x, shrinks (fun s => step s x)) ->
  shrinks (fun s => foldl step s xs).
Proof.
  intros Hstep. induction xs as [| x xs IH]; simpl.
  - intros s. by left.
  - apply (shrinks_compose (fun s => step s x) (fun s => foldl step s xs));
      [apply Hstep | apply IH].
Qed.

(** *** strip *)

Lemma lstrip_shrinks : shrinks lstrip.
Proof.
  intros s. induction s as [| c s IH]; simpl; [by left |].
  destruct (isspace c); [| by left].
  right. destruct IH as [-> | H]; simpl; lia.
Qed.

Lemma rstrip_shrinks : shrinks rstrip.
Proof.
  intros s. induction s as [| c s IH]; simpl; [by left |].
  destruct (rstrip s) as [| a r] eqn:E.
  - destruct IH as [<- | H].
    + destruct (isspace c); [right; simpl; lia | by left].
    + right. destruct (isspace c); simpl in *; lia.
  - destruct IH as [<- | H]; [by left | right; simpl in *; lia].
Qed.

Lemma strip_shrinks : shrinks strip.
Proof. exact (shrinks_compose lstrip rstrip lstrip_shrinks rstrip_shrinks). Qed.

Lemma rstrip_idemp s : rstrip (rstrip s) = rstrip s.
Proof.
  induction s as [| c s IH]; simpl; [done |].
  destruct (rstrip s) as [| a r] eqn:E.
  - destruct (isspace c) eqn:Ec; simpl; [done | by rewrite Ec].
  - change (rstrip (c :: a :: r)) with
      (match rstrip (a :: r) with
       | [] => if isspace c then [] else [c]
       | x :: r' => c :: x :: r'
       end).
    by rewrite IH.
Qed.

Lemma lstrip_head_solid s : head_solid (lstrip s).
Proof.
  induction s as [| c s IH]; simpl; [done |].
  destruct (isspace c) eqn:E; [done | simpl; done].
Qed.

Lemma head_solid_lstrip s : head_solid s -> lstrip s = s.
Proof. destruct s as [| c s]; simpl; [done | by intros ->]. Qed.

Lemma rstrip_head_solid s : head_solid s -> head_solid (rstrip s).
Proof.
  destruct s as [| c s]; simpl; [done |]. intros Hc.
  destruct (rstrip s); simpl; [by rewrite Hc | done].
Qed.

Lemma strip_idemp s : strip (strip s) = strip s.
Proof.
  unfold strip.
  rewrite (head_solid_lstrip (rstrip (lstrip s))).
  - apply rstrip_idemp.
  - apply rstrip_head_solid, lstrip_head_solid.
Qed.

Lemma strip_nil : strip [] = [].
Proof. reflexivity. Qed.

(** *** startswith, index, in *)

Lemma startswith_app s p : startswith s p = true -> s = p ++ drop (length p) s.
Proof.
  revert s. induction p as [| a p IH]; intros s; simpl; [done |].
  destruct s as [| c s]; [done |].
  intros [Hc Hp]%andb_true_iff. apply N.eqb_eq in Hc as ->.
  simpl. f_equal. by apply IH.
Qed.

Lemma startswith_prefix p t : startswith (p ++ t) p = true.
Proof. induction p as [| a p IH]; simpl; [done |]. rewrite N.eqb_refl. exact IH. Qed.

Lemma startswith_length s p : startswith s p = true -> (length p <= length s)%nat.
Proof.
  intros H%startswith_app. apply (f_equal length) in H.
  rewrite length_app in H. lia.
Qed.

Lemma index_bound s sub i :
  index s sub = Some i -> (i + length sub <= length s)%nat.
Proof.
  revert i. induction s as [| c s IH]; intros i.
  - destruct sub; simpl; [| done]. intros [= <-]. simpl. lia.
  - cbn [index]. destruct (startswith (c :: s) sub) eqn:E.
    + intros [= <-]. apply startswith_length in E. simpl in *. lia.
    + destruct (index s sub) as [j |] eqn:Ej; [| done].
      intros [= <-]. specialize (IH j eq_refl). simpl. lia.
Qed.

Lemma index_cons_None c s sub :
  index (c :: s) sub = None ->
  startswith (c :: s) sub = false /\ index s sub = None.
Proof.
  cbn [index]. destruct (startswith (c :: s) sub); [done |].
  destruct (index s sub); [done | done].
Qed.

Lemma str_in_false sub s : str_in sub s = false <-> index s sub = None.
Proof. unfold str_in. destruct (index s sub); split; done. Qed.

Lemma str_in_true sub s : str_in sub s = true <-> is_Some (index s sub).
Proof.
  unfold str_in. destruct (index s sub); split; intros H;
    try done; try (by eexists); by destruct H.
Qed.

(** *** The scanning loop *)

Lemma scan_skip m k s : scan m k s = scan m 0 (drop k s).
Proof.
  revert k. induction s as [| c s IH]; intros k.
  - by destruct k.
  - destruct k as [| k]; [done |]. simpl. apply IH.
Qed.

Lemma scan_cons m c s :
  scan m 0 (c :: s) =
    match m (c :: s) with
    | Some (n, out) => out ++ scan m 0 (drop n s)
    | None => c :: scan m 0 s
    end.
Proof.
  simpl. destruct (m (c :: s)) as [[n out] |]; [| done].
  by rewrite scan_skip.
Qed.

Lemma scan_shrinks m : contracting m -> shrinks (scan m 0).
Proof.
  intros Hm s.
  remember (length s) as len eqn:Hl. revert s Hl.
  induction (lt_wf len) as [len _ H]. intros s ->.
  destruct s as [| c s]; [by left |].
  rewrite scan_cons. destruct (m (c :: s)) as [[n out] |] eqn:E.
  - destruct (Hm _ _ _ E) as (Hn & Hout & Hsame). simpl in Hn.
    assert (Hlen : (length (drop n s) < length (c :: s))%nat)
      by (rewrite length_drop; simpl; lia).
    pose proof (length_drop s n) as Hd.
    destruct (H _ Hlen (drop n s) eq_refl) as [Ed | Ld].
    + rewrite Ed. destruct (decide (length out = S n)) as [El | Nl].
      * left. rewrite (Hsame El). change (drop n s) with (drop (S n) (c :: s)).
        apply take_drop.
      * right. rewrite length_app. simpl. lia.
    + right. rewrite length_app. simpl. lia.
  - assert (Hlen : (length s < length (c :: s))%nat) by (simpl; lia).
    destruct (H _ Hlen s eq_refl) as [Es | Ls].
    + left. by rewrite Es.
    + right. simpl. lia.
Qed.

(** *** replace *)

Lemma replace_match_contracting old : old <> [] ->
  contracting (replace_match old []).
Proof.
  intros Hold t n out. unfold replace_match.
  destruct (startswith t old) eqn:E; [| done]. intros [= <- <-].
  apply startswith_length in E. destruct old; [done |]. simpl in *.
  repeat split; [lia | lia | lia].
Qed.

Lemma replace_shrinks old : shrinks (fun s => replace s old []).
Proof.
  destruct old as [| a old].
  - intros s. left. unfold replace. simpl.
    induction s as [| c s IH]; simpl; [done | by rewrite IH].
  - apply (scan_shrinks (replace_match (a :: old) [])).
    by apply replace_match_contracting.
Qed.

Lemma replace_cons s c old new : old <> [] ->
  replace (c :: s) old new =
    if startswith (c :: s) old
    then new ++ replace (drop (pred (length old)) s) old new
    else c :: replace s old new.
Proof.
  intros Hold. destruct old as [| a old]; [done |].
  unfold replace. rewrite scan_cons. unfold replace_match at 1.
  by destruct (startswith (c :: s) (a :: old)).
Qed.

Lemma replace_absent s old new :
  old <> [] -> index s old = None -> replace s old new = s.
Proof.
  intros Hold. induction s as [| c s IH].
  - by destruct old.
  - intros [Hs Hi]%index_cons_None. rewrite replace_cons by done.
    rewrite Hs. by rewrite IH.
Qed.

Lemma replace_present s old i :
  old <> [] -> index s old = Some i ->
  (length (replace s old []) + length old <= length s)%nat.
Proof.
  intros Hold. revert i. induction s as [| c s IH]; intros i.
  - destruct old; [done | simpl; done].
  - rewrite replace_cons by done. cbn [index].
    destruct (startswith (c :: s) old) eqn:E.
    + intros _. simpl.
      pose proof (shrinks_le _ (drop (pred (length old)) s) (replace_shrinks old)) as Hle.
      simpl in Hle. rewrite length_drop in Hle.
      apply startswith_length in E. simpl in E.
      destruct old; [done |]. simpl in *. lia.
    + destruct (index s old) as [j |] eqn:Ej; [| done]. intros _.
      specialize (IH j eq_refl). simpl. lia.
Qed.

(** *** split *)

Lemma index_decompose s sub i :
  index s sub = Some i ->
  s = take i s ++ sub ++ drop (i + length sub) s.
Proof.
  revert i. induction s as [| c s IH]; intros i.
  - destruct sub; simpl; [| done]. by intros [= <-].
  - cbn [index]. destruct (startswith (c :: s) sub) eqn:E.
    + intros [= <-]. simpl take. simpl app at 1. by apply startswith_app.
    + destruct (index s sub) as [j |] eqn:Ej; [| done]. intros [= <-].
      simpl. f_equal. by apply IH.
Qed.

Lemma split_aux_skip sep k cur s :
  split_aux sep k cur s = split_aux sep 0 cur (drop k s).
Proof.
  revert k. induction s as [| c s IH]; intros k.
  - by destruct k.
  - destruct k as [| k]; [done |]. simpl. apply IH.
Qed.

Lemma split_aux_absent sep cur s :
  sep <> [] -> index s sep = None ->
  split_aux sep 0 cur s = [reverse cur ++ s].
Proof.
  intros Hsep. revert cur. induction s as [| c s IH]; intros cur.
  - intros _. simpl. by rewrite app_nil_r.
  - intros [Hs Hi]%index_cons_None. cbn [split_aux]. rewrite Hs.
    rewrite IH by done. by rewrite reverse_cons, <- app_assoc.
Qed.

Lemma split_aux_present sep cur s i :
  sep <> [] -> index s sep = Some i ->
  split_aux sep 0 cur s =
    (reverse cur ++ take i s) :: split_aux sep 0 [] (drop (i + length sep) s).
Proof.
  intros Hsep. revert cur i. induction s as [| c s IH]; intros cur i.
  - destruct sep; [done | simpl; done].
  - cbn [index split_aux]. destruct (startswith (c :: s) sep) eqn:E.
    + intros [= <-]. rewrite split_aux_skip.
      destruct sep; [done |]. simpl. by rewrite app_nil_r.
    + destruct (index s sep) as [j |] eqn:Ej; [| done]. intros [= <-].
      rewrite (IH _ j) by done. simpl. by rewrite reverse_cons, <- app_assoc.
Qed.

Lemma split_absent s sep :
  sep <> [] -> index s sep = None -> split s sep = [s].
Proof. intros. unfold split. by rewrite split_aux_absent. Qed.

Lemma split_present s sep i :
  sep <> [] -> index s sep = Some i ->
  split s sep = take i s :: split (drop (i + length sep) s) sep.
Proof. intros. unfold split. by rewrite (split_aux_present _ _ _ i). Qed.

Lemma split_nonempty s sep : split s sep <> [].
Proof.
  unfold split. generalize (@nil N) at 1 as cur. generalize 0%nat as k.
  induction s as [| c s IH]; intros k cur; simpl; [done |].
  destruct k; [| apply IH].
  destruct (startswith (c :: s) sep); [done | apply IH].
Qed.

Lemma last_part_cons p parts :
  parts <> [] -> last_part (p :: parts) = last_part parts.
Proof. destruct parts; [done |]. intros _. reflexivity. Qed.

(** When the separator occurs, [split] yields at least two parts and the
    last one is the text behind the last occurrence. *)
Lemma split_last_spec s sep i :
  sep <> [] -> index s sep = Some i ->
  (1 < length (split s sep))%nat /\
  index (last_part (split s sep)) sep = None /\
  exists pre, s = pre ++ sep ++ last_part (split s sep).
Proof.
  intros Hsep. remember (length s) as len eqn:Hl. revert s i Hl.
  induction (lt_wf len) as [len _ IH]. intros s i -> Hi.
  rewrite (split_present _ _ i) by done.
  pose proof (index_decompose _ _ _ Hi) as Hdec.
  set (rest := drop (i + length sep) s) in *.
  assert (Hlen : (length rest < length s)%nat).
  { apply (f_equal length) in Hdec. rewrite !length_app in Hdec.
    destruct sep; [done |]. simpl in *. lia. }
  rewrite last_part_cons by apply split_nonempty.
  destruct (index rest sep) as [j |] eqn:Ej.
  - destruct (IH _ Hlen rest j eq_refl Ej) as (Hn & Hnone & pre & Hpre).
    split; [simpl; lia |]. split; [done |].
    exists (take i s ++ sep ++ pre).
    rewrite Hdec at 1. rewrite Hpre at 1. by rewrite <- !app_assoc.
  - rewrite (split_absent rest sep) by done.
    split; [simpl; lia |]. split; [done |].
    by exists (take i s).
Qed.

(** *** The blank-line pattern *)

Lemma isspace_NL c : (c =? NL) = true -> isspace c = true.
Proof. intros ->%N.eqb_eq. reflexivity. Qed.

Lemma match_ws_nl_newline t : match_ws_nl (NL :: t) <> None.
Proof. simpl. by destruct (match_ws_nl t). Qed.

(** Where the greedy star has to give a newline back, that newline is the
    last one of its run. *)
Lemma match_ws_nl_cons c t :
  match_ws_nl (c :: t) =
    if isspace c then
      match match_ws_nl t with
      | Some n => Some (S n)
      | None => if c =? NL then Some 1%nat else None
      end
    else None.
Proof.
  cbn [match_ws_nl]. destruct (isspace c) eqn:Ec.
  - destruct (match_ws_nl t) eqn:Et; [done |].
    destruct (c =? NL); [| done].
    destruct t as [| a t]; [done |]. simpl.
    destruct (a =? NL) eqn:Ea; [| done].
    apply N.eqb_eq in Ea as ->. by apply match_ws_nl_newline in Et.
  - destruct (c =? NL) eqn:E; [| done].
    apply isspace_NL in E. congruence.
Qed.

Lemma match_ws_nl_bound t n :
  match_ws_nl t = Some n ->
  (1 <= n <= length t)%nat /\
  (n = 1%nat -> exists t', t = NL :: t' /\ match_ws_nl t' = None).
Proof.
  revert n. induction t as [| c t IH]; intros n; [done |].
  rewrite match_ws_nl_cons. destruct (isspace c); [| done].
  destruct (match_ws_nl t) as [k |] eqn:Et.
  - intros [= <-]. destruct (IH k eq_refl) as [Hk _].
    split; [simpl; lia | lia].
  - destruct (c =? NL) eqn:Ec; [| done]. intros [= <-].
    apply N.eqb_eq in Ec as ->. split; [simpl; lia |]. intros _. by exists t.
Qed.

Lemma match_ws_nl_drop t n :
  match_ws_nl t = Some n -> match_ws_nl (drop n t) = None.
Proof.
  revert n. induction t as [| c t IH]; intros n; [done |].
  rewrite match_ws_nl_cons. destruct (isspace c); [| done].
  destruct (match_ws_nl t) as [k |] eqn:Et.
  - intros [= <-]. simpl. by apply IH.
  - destruct (c =? NL); [| done]. by intros [= <-].
Qed.

Lemma blank_lines_contracting : contracting blank_lines_match.
Proof.
  intros t n out. destruct t as [| c t]; [done |]. simpl.
  destruct (c =? NL) eqn:Ec; [| done].
  destruct (match_ws_nl t) as [k |] eqn:Et; [| done].
  intros [= <- <-]. destruct (match_ws_nl_bound _ _ Et) as [Hk Hone].
  apply N.eqb_eq in Ec as ->. simpl.
  repeat split; [lia | lia |].
  intros [= Hk1]. destruct (Hone (eq_sym Hk1)) as (t' & -> & _).
  by rewrite <- Hk1.
Qed.

Lemma collapse_shrinks : shrinks collapse_blank_lines.
Proof. exact (scan_shrinks _ blank_lines_contracting). Qed.

Lemma collapse_cons c s :
  collapse_blank_lines (c :: s) =
    if c =? NL then
      match match_ws_nl s with
      | Some n => NL :: NL :: collapse_blank_lines (drop n s)
      | None => c :: collapse_blank_lines s
      end
    else c :: collapse_blank_lines s.
Proof.
  unfold collapse_blank_lines. rewrite scan_cons. simpl.
  destruct (c =? NL); [| done]. by destruct (match_ws_nl s).
Qed.

Lemma collapsed_cons c s :
  collapsed (c :: s) <->
  collapsed s /\
  (c = NL -> match_ws_nl s = None \/ match_ws_nl s = Some 1%nat).
Proof.
  unfold collapsed. rewrite collapse_cons. split.
  - destruct (c =? NL) eqn:Ec.
    + apply N.eqb_eq in Ec as ->.
      destruct (match_ws_nl s) as [n |] eqn:En.
      * intros [= Hs].
        destruct (match_ws_nl_bound _ _ En) as [Hn Hone].
        pose proof (shrinks_le _ (drop n s) collapse_shrinks) as Hle.
        rewrite length_drop in Hle.
        assert (Hsl : length s = S (length (collapse_blank_lines (drop n s))))
          by (rewrite <- Hs at 1; done).
        assert (n = 1%nat) as -> by lia.
        destruct (Hone eq_refl) as (t' & -> & Ht'). simpl in Hs.
        injection Hs as Hs. split; [| by right].
        rewrite collapse_cons. simpl. rewrite drop_0 in Hs. by rewrite Ht', Hs.
      * intros [= Hs]. split; [done | by left].
    + intros [= Hs]. split; [done |]. intros ->. done.
  - intros [Hs Hc]. destruct (c =? NL) eqn:Ec; [| by rewrite Hs].
    apply N.eqb_eq in Ec as ->. destruct (Hc eq_refl) as [-> | E].
    + by rewrite Hs.
    + rewrite E. destruct (match_ws_nl_bound _ _ E) as [_ Hone].
      destruct (Hone eq_refl) as (t' & -> & Ht'). simpl. do 2 f_equal.
      rewrite collapse_cons in Hs. simpl in Hs. rewrite Ht' in Hs.
      by injection Hs.
Qed.

Lemma match_ws_nl_collapse s :
  match_ws_nl s = None -> match_ws_nl (collapse_blank_lines s) = None.
Proof.
  induction s as [| c s IH]; [done |].
  rewrite match_ws_nl_cons, collapse_cons.
  destruct (isspace c) eqn:Ec.
  - destruct (match_ws_nl s) eqn:Es; [done |].
    destruct (c =? NL) eqn:E; [done |]. intros _.
    by rewrite match_ws_nl_cons, Ec, IH, E.
  - intros _. destruct (c =? NL) eqn:E.
    + apply isspace_NL in E. congruence.
    + by rewrite match_ws_nl_cons, Ec.
Qed.

Lemma collapse_collapsed s : collapsed (collapse_blank_lines s).
Proof.
  remember (length s) as len eqn:Hl. revert s Hl.
  induction (lt_wf len) as [len _ IH]. intros s ->.
  destruct s as [| c s]; [done |].
  assert (Htail : collapsed (collapse_blank_lines s)).
  { apply (IH (length s)); [simpl; lia | done]. }
  rewrite collapse_cons. destruct (c =? NL) eqn:Ec.
  - apply N.eqb_eq in Ec as ->.
    destruct (match_ws_nl s) as [n |] eqn:En.
    + assert (Hrest : collapsed (collapse_blank_lines (drop n s))).
      { apply (IH (length (drop n s))); [| done].
        rewrite length_drop. simpl. lia. }
      assert (Hnone : match_ws_nl (collapse_blank_lines (drop n s)) = None).
      { apply match_ws_nl_collapse. by apply match_ws_nl_drop. }
      apply collapsed_cons. split.
      * apply collapsed_cons. split; [done | by left].
      * intros _. right. rewrite match_ws_nl_cons. simpl. by rewrite Hnone.
    + apply collapsed_cons. split; [done |]. intros _. left.
      by apply match_ws_nl_collapse.
  - apply collapsed_cons. split; [done |]. intros ->. done.
Qed.

Lemma collapsed_lstrip s : collapsed s -> collapsed (lstrip s).
Proof.
  induction s as [| c s IH]; [done |]. intros H. simpl.
  destruct (isspace c); [| done]. apply IH. by apply collapsed_cons in H as [? _].
Qed.

Lemma match_ws_nl_rstrip s :
  rstrip s <> [] -> match_ws_nl (rstrip s) = match_ws_nl s.
Proof.
  induction s as [| c s IH]; [done |]. simpl rstrip.
  destruct (rstrip s) as [| a r] eqn:Er.
  - destruct (isspace c) eqn:Ec; [done |]. intros _.
    by rewrite !match_ws_nl_cons, Ec.
  - intros _. rewrite (match_ws_nl_cons c s), <- IH by done.
    by rewrite match_ws_nl_cons.
Qed.

Lemma collapsed_rstrip s : collapsed s -> collapsed (rstrip s).
Proof.
  induction s as [| c s IH]; [done |].
  intros [Hs Hc]%collapsed_cons. specialize (IH Hs). simpl rstrip.
  destruct (rstrip s) as [| a r] eqn:Er.
  - destruct (isspace c) eqn:Ec; [done |].
    apply collapsed_cons. split; [done |]. intros ->. done.
  - apply collapsed_cons. split; [done |]. intros Hnl.
    rewrite <- Er, match_ws_nl_rstrip; [by apply Hc | by rewrite Er].
Qed.

Lemma collapsed_strip s : collapsed s -> collapsed (strip s).
Proof. intros H. by apply collapsed_rstrip, collapsed_lstrip. Qed.


Lemma index_startswith s sub : startswith s sub = true -> index s sub = Some 0%nat.
Proof. intros H. destruct s; simpl; by rewrite H. Qed.

Lemma startswith_same_prefix a b b' p :
  (length p <= length a)%nat ->
  startswith (a ++ b) p = startswith (a ++ b') p.
Proof.
  revert a. induction p as [| x p IH]; intros a Hlen; [done |].
  destruct a as [| c a]; [simpl in Hlen; lia |]. simpl.
  rewrite (IH a) by (simpl in Hlen; lia). done.
Qed.

(** The position of the first occurrence does not depend on what follows
    that occurrence. *)
Lemma index_tail_irrelevant s sub i tail :
  index s sub = Some i -> index (take i s ++ sub ++ tail) sub = Some i.
Proof.
  revert i. induction s as [| c s IH]; intros i.
  - destruct sub; simpl; [| done]. intros [= <-]. by destruct tail.
  - cbn [index]. destruct (startswith (c :: s) sub) eqn:E.
    + intros [= <-]. simpl take. simpl app at 1.
      apply index_startswith, startswith_prefix.
    + destruct (index s sub) as [j |] eqn:Ej; [| done]. intros [= <-].
      pose proof (index_decompose _ _ _ Ej) as Hdec.
      pose proof (index_bound _ _ _ Ej) as Hb.
      simpl take. rewrite <- app_comm_cons. cbn [index].
      replace (startswith (c :: take j s ++ sub ++ tail) sub) with false.
      * by rewrite (IH j).
      * set (a := c :: take j s ++ sub).
        assert (H1 : c :: s = a ++ drop (j + length sub) s).
        { unfold a. simpl. rewrite <- app_assoc. by f_equal. }
        assert (H2 : c :: take j s ++ sub ++ tail = a ++ tail).
        { unfold a. simpl. by rewrite <- app_assoc. }
        rewrite H2, <- E.
        rewrite (startswith_same_prefix a tail (drop (j + length sub) s)).
        { by rewrite <- H1. }
        unfold a. simpl. rewrite length_app. lia.
Qed.


Lemma index_app_present pre p t : is_Some (index (pre ++ p ++ t) p).
Proof.
  induction pre as [| c pre IH].
  - exists 0%nat. simpl. apply index_startswith. apply (startswith_prefix p t).
  - rewrite <- app_comm_cons. cbn [index].
    destruct (startswith (c :: pre ++ p ++ t) p); [by eexists |].
    destruct IH as [i ->]. by eexists.
Qed.

Lemma endswith_str_in s p : endswith s p = true -> str_in p s = true.
Proof.
  unfold endswith. intros H%startswith_app.
  apply (f_equal reverse) in H. rewrite reverse_involutive, reverse_app in H.
  rewrite reverse_involutive in H. apply str_in_true.
  pose proof (index_app_present
    (reverse (drop (length (reverse p)) (reverse s))) p []) as Hp.
  rewrite app_nil_r in Hp. by rewrite <- H in Hp.
Qed.


Lemma rstrip_app_solid (a b : str) : rstrip b <> [] -> rstrip (a ++ b) = a ++ rstrip b.
Proof.
  intros Hb. induction a as [| c a IH]; [done |].
  rewrite <- !app_comm_cons. cbn [rstrip]. rewrite IH.
  destruct (a ++ rstrip b) eqn:E; [| done].
  apply app_eq_nil in E as [_ E]. done.
Qed.

End PyStrFacts.

(* ===================================================================== *)
(** ** The answer sanitizer *)
(* ===================================================================== *)

Module Sanitizer.

Import Props PyStrFacts App.

(** *** Every strategy returns its input or a strictly shorter text *)

Lemma END_MARKER_length : length END_MARKER = 4%nat.
Proof. reflexivity. Qed.

Lemma ANSWER_MARKER_length : length ANSWER_MARKER = 4%nat.
Proof. reflexivity. Qed.

Lemma truncate_at_end_present s i :
  index s END_MARKER = Some i ->
  truncate_at_end s = strip (take i s) /\
  (length (truncate_at_end s) < length s)%nat.
Proof.
  intros Hi. unfold truncate_at_end. rewrite Hi. split; [done |].
  pose proof (index_bound _ _ _ Hi) as Hb. rewrite END_MARKER_length in Hb.
  pose proof (shrinks_le _ (take i s) strip_shrinks) as Hle.
  rewrite length_take in Hle. lia.
Qed.

Lemma truncate_at_end_shrinks : shrinks truncate_at_end.
Proof.
  intros s. destruct (index s END_MARKER) as [i |] eqn:Hi.
  - right. by apply (truncate_at_end_present s i).
  - left. unfold truncate_at_end. by rewrite Hi.
Qed.

Lemma ANSWER_MARKER_nonempty : ANSWER_MARKER <> [].
Proof. done. Qed.

Lemma keep_last_answer_present s i :
  index s ANSWER_MARKER = Some i ->
  keep_last_answer s = strip (last_part (split s ANSWER_MARKER)) /\
  (length (keep_last_answer s) < length s)%nat.
Proof.
  intros Hi. unfold keep_last_answer, str_in. rewrite Hi.
  destruct (split_last_spec s ANSWER_MARKER i ANSWER_MARKER_nonempty Hi)
    as (Hn & _ & pre & Hpre).
  apply Nat.ltb_lt in Hn. rewrite Hn. split; [done |].
  pose proof (shrinks_le _ (last_part (split s ANSWER_MARKER)) strip_shrinks) as Hle.
  apply (f_equal length) in Hpre. rewrite !length_app in Hpre.
  rewrite ANSWER_MARKER_length in Hpre. lia.
Qed.

Lemma keep_last_answer_absent s :
  index s ANSWER_MARKER = None -> keep_last_answer s = s.
Proof. intros Hi. unfold keep_last_answer, str_in. by rewrite Hi. Qed.

Lemma keep_last_answer_shrinks : shrinks keep_last_answer.
Proof.
  intros s. destruct (index s ANSWER_MARKER) as [i |] eqn:Hi.
  - right. by apply (keep_last_answer_present s i).
  - left. by apply keep_last_answer_absent.
Qed.

Lemma remove_token_shrinks x : shrinks (fun s => remove_token s x).
Proof.
  apply (shrinks_compose (fun s => replace s x []) strip);
    [apply replace_shrinks | apply strip_shrinks].
Qed.

Lemma remove_markers_shrinks : shrinks remove_markers.
Proof. apply (shrinks_foldl remove_token), remove_token_shrinks. Qed.

Lemma remove_closings_shrinks : shrinks remove_closings.
Proof. apply (shrinks_foldl remove_token), remove_token_shrinks. Qed.

Lemma strip_summary_present s :
  endswith s SUMMARY_SUFFIX = true ->
  (length (strip_summary s) < length s)%nat.
Proof.
  intros He. unfold strip_summary. rewrite He.
  apply startswith_length in He. rewrite !length_reverse in He.
  change (length SUMMARY_SUFFIX) with 2%nat in He.
  pose proof (shrinks_le _ (take (length s - 2) s) strip_shrinks) as Hle.
  rewrite length_take in Hle. lia.
Qed.

Lemma strip_summary_shrinks : shrinks strip_summary.
Proof.
  intros s. destruct (endswith s SUMMARY_SUFFIX) eqn:He.
  - right. by apply strip_summary_present.
  - left. unfold strip_summary. by rewrite He.
Qed.

Lemma clean_answer_unfold c s :
  clean_answer (c :: s) = after_truncation (truncate_at_end (c :: s)).
Proof. unfold clean_answer, after_truncation. reflexivity. Qed.

Ltac chain f g := apply (shrinks_compose f g).

Lemma after_truncation_shrinks : shrinks after_truncation.
Proof.
  unfold after_truncation.
  chain (fun s => collapse_blank_lines
    (remove_closings (strip_summary (remove_markers (keep_last_answer s))))) strip;
    [| apply strip_shrinks].
  chain (fun s => remove_closings (strip_summary (remove_markers (keep_last_answer s))))
    collapse_blank_lines; [| apply collapse_shrinks].
  chain (fun s => strip_summary (remove_markers (keep_last_answer s)))
    remove_closings; [| apply remove_closings_shrinks].
  chain (fun s => remove_markers (keep_last_answer s)) strip_summary;
    [| apply strip_summary_shrinks].
  chain keep_last_answer remove_markers;
    [apply keep_last_answer_shrinks | apply remove_markers_shrinks].
Qed.

Lemma clean_answer_shrinks : shrinks clean_answer.
Proof.
  intros [| c s]; [by left |]. rewrite clean_answer_unfold.
  apply (shrinks_compose truncate_at_end after_truncation);
    [apply truncate_at_end_shrinks | apply after_truncation_shrinks].
Qed.

(** *** Fixed points of the strategies *)

Lemma shrinks_fix_both f g s :
  shrinks f -> shrinks g -> g (f s) = s -> f s = s /\ g s = s.
Proof.
  intros Hf Hg E. pose proof (shrinks_fix_first f g s Hf Hg E) as Ef.
  split; [done |]. by rewrite Ef in E.
Qed.

Lemma foldl_fixed (step : str -> str -> str) s xs :
  (forall x, x ∈ xs -> step s x = s) -> foldl step s xs = s.
Proof.
  induction xs as [| x xs IH]; simpl; [done |]. intros H.
  rewrite (H x) by left. apply IH. intros y Hy. apply H. by right.
Qed.

Lemma foldl_fix_inv (step : str -> str -> str) s xs :
  (forall x, shrinks (fun t => step t x)) ->
  foldl step s xs = s -> forall x, x ∈ xs -> step s x = s.
Proof.
  intros Hstep. induction xs as [| x xs IH]; simpl.
  - intros _ y Hy. by apply elem_of_nil in Hy.
  - intros E.
    destruct (shrinks_fix_both (fun t => step t x) (fun t => foldl step t xs) s
                (Hstep x) (shrinks_foldl step xs Hstep) E) as [Ex Exs].
    intros y [-> | Hy]%elem_of_cons; [done | by apply IH].
Qed.

Lemma remove_token_fixed s x :
  x <> [] -> strip s = s -> str_in x s = false -> remove_token s x = s.
Proof.
  intros Hx Hs Hin%str_in_false. unfold remove_token.
  by rewrite replace_absent.
Qed.

Lemma remove_token_fix_inv s x :
  x <> [] -> remove_token s x = s -> str_in x s = false.
Proof.
  intros Hx E. unfold remove_token in E.
  apply (shrinks_fix_first (fun t => replace t x []) strip s
           (replace_shrinks x) strip_shrinks) in E.
  apply str_in_false. destruct (index s x) as [i |] eqn:Hi; [| done].
  pose proof (replace_present s x i Hx Hi) as Hlen. simpl in E.
  rewrite E in Hlen. destruct x; [done | simpl in Hlen; lia].
Qed.

Lemma markers_nonempty x : x ∈ markers -> x <> [].
Proof.
  unfold markers. rewrite !elem_of_cons, elem_of_nil.
  intros H; repeat (destruct H as [-> | H]; [done |]); done.
Qed.

Lemma closing_phrases_nonempty x : x ∈ closing_phrases -> x <> [].
Proof.
  unfold closing_phrases. rewrite !elem_of_cons, elem_of_nil.
  intros H; repeat (destruct H as [-> | H]; [done |]); done.
Qed.

Lemma END_MARKER_in_markers : END_MARKER ∈ markers.
Proof. unfold markers, END_MARKER. set_solver. Qed.

Lemma ANSWER_MARKER_in_markers : ANSWER_MARKER ∈ markers.
Proof. unfold markers, ANSWER_MARKER. set_solver. Qed.

Lemma clean_answer_fixed y :
  strip y = y -> collapsed y -> residue_free y -> clean_answer y = y.
Proof.
  intros Hs Hc (Hm & Hp & He). destruct y as [| c y]; [done |].
  rewrite clean_answer_unfold. unfold truncate_at_end.
  pose proof (Hm _ END_MARKER_in_markers) as HE. apply str_in_false in HE.
  rewrite HE. unfold after_truncation.
  rewrite keep_last_answer_absent
    by (apply str_in_false, Hm, ANSWER_MARKER_in_markers).
  unfold remove_markers. rewrite foldl_fixed; last first.
  { intros x Hx. apply remove_token_fixed; [by apply markers_nonempty | done |].
    by apply Hm. }
  unfold strip_summary. rewrite He.
  unfold remove_closings. rewrite foldl_fixed; last first.
  { intros x Hx. apply remove_token_fixed;
      [by apply closing_phrases_nonempty | done | by apply Hp]. }
  by rewrite Hc, Hs.
Qed.

Lemma remove_markers_fix_inv s x :
  remove_markers s = s -> x ∈ markers -> remove_token s x = s.
Proof. exact (fun E => foldl_fix_inv remove_token s markers remove_token_shrinks E x). Qed.

Lemma remove_closings_fix_inv s x :
  remove_closings s = s -> x ∈ closing_phrases -> remove_token s x = s.
Proof.
  exact (fun E => foldl_fix_inv remove_token s closing_phrases remove_token_shrinks E x).
Qed.

Lemma after_truncation_fix_inv s :
  after_truncation (truncate_at_end s) = s -> residue_free s.
Proof.
  intros E.
  destruct (shrinks_fix_both truncate_at_end after_truncation _
              truncate_at_end_shrinks after_truncation_shrinks E) as [_ E'].
  clear E. unfold after_truncation in E'.
  assert (Hrc : shrinks (fun s => collapse_blank_lines (remove_closings s)))
    by apply (shrinks_compose remove_closings collapse_blank_lines
                remove_closings_shrinks collapse_shrinks).
  assert (Hsrc : shrinks
    (fun s => collapse_blank_lines (remove_closings (strip_summary s))))
    by apply (shrinks_compose strip_summary _ strip_summary_shrinks Hrc).
  assert (Hmsrc : shrinks
    (fun s => collapse_blank_lines (remove_closings (strip_summary (remove_markers s)))))
    by apply (shrinks_compose remove_markers _ remove_markers_shrinks Hsrc).
  assert (Hkmsrc : shrinks
    (fun s => collapse_blank_lines
       (remove_closings (strip_summary (remove_markers (keep_last_answer s))))))
    by apply (shrinks_compose keep_last_answer _ keep_last_answer_shrinks Hmsrc).
  destruct (shrinks_fix_both _ strip s Hkmsrc strip_shrinks E') as [E6 _].
  cbv beta in E6.
  destruct (shrinks_fix_both keep_last_answer _ s
              keep_last_answer_shrinks Hmsrc E6) as [_ E3']. cbv beta in E3'.
  destruct (shrinks_fix_both remove_markers _ s
              remove_markers_shrinks Hsrc E3') as [E3 E4']. cbv beta in E4'.
  destruct (shrinks_fix_both strip_summary _ s
              strip_summary_shrinks Hrc E4') as [E4 E5']. cbv beta in E5'.
  destruct (shrinks_fix_both remove_closings collapse_blank_lines s
              remove_closings_shrinks collapse_shrinks E5') as [E5 _].
  split; [| split].
  - intros x Hx. apply remove_token_fix_inv; [by apply markers_nonempty |].
    by apply remove_markers_fix_inv.
  - intros x Hx. apply remove_token_fix_inv;
      [by apply closing_phrases_nonempty |].
    by apply remove_closings_fix_inv.
  - destruct (endswith s SUMMARY_SUFFIX) eqn:He; [| done].
    pose proof (strip_summary_present s He) as Hlt. rewrite E4 in Hlt. lia.
Qed.

Lemma clean_answer_fix_inv y : clean_answer y = y -> residue_free y.
Proof.
  destruct y as [| c y].
  - intros _. split; [| split].
    + intros x Hx%markers_nonempty. by destruct x.
    + intros x Hx%closing_phrases_nonempty. by destruct x.
    + reflexivity.
  - rewrite clean_answer_unfold. apply after_truncation_fix_inv.
Qed.

Lemma clean_answer_stripped s : strip (clean_answer s) = clean_answer s.
Proof.
  destruct s as [| c s]; [done |]. rewrite clean_answer_unfold.
  unfold after_truncation. apply strip_idemp.
Qed.

Lemma clean_answer_collapsed s : collapsed (clean_answer s).
Proof.
  destruct s as [| c s]; [done |]. rewrite clean_answer_unfold.
  unfold after_truncation. apply collapsed_strip, collapse_collapsed.
Qed.


(* --------------------------------------------------------------------- *)
(** *** Theorems on [clean_answer] *)
(* --------------------------------------------------------------------- *)

(** A typical reply: a leaked template marker, a run of blank lines and a
    closing phrase. *)
Example clean_answer_example :
  clean_answer (u "【红学分析】
黛玉葬花见于第二十七回。

  

此处用草蛇灰线之法。



希望对您有所帮助。")
  = u "黛玉葬花见于第二十七回。

此处用草蛇灰线之法。".
Proof. vm_compute. reflexivity. Qed.

(** C6.  For every input string the output of [clean_answer] is at most as
    long as the input: no cleanup step lengthens the text. *)
Theorem clean_answer_never_longer (raw_answer : str) :
  (length (clean_answer raw_answer) <= length raw_answer)%nat.
Proof. apply shrinks_le, clean_answer_shrinks. Qed.

(** C2, as stated, fails: the loop of strategy 3 handles each marker once,
    so the removal of a later marker can join the two halves of an earlier
    one; the first run returns the end marker and a second run cuts the
    text there. *)
Lemma clean_answer_twice_differs :
  clean_answer (clean_answer (u "【结【任务】束】")) <> clean_answer (u "【结【任务】束】").
Proof. vm_compute. discriminate. Qed.

Example clean_answer_twice_differs_marker :
  clean_answer (u "【结【任务】束】") = u "【结束】" /\
  clean_answer (clean_answer (u "【结【任务】束】")) = [].
Proof. split; vm_compute; reflexivity. Qed.

(** Strategy 4 takes one trailing fragment away per run. *)
Example clean_answer_twice_differs_summary :
  clean_answer (u "答案以上以上") = u "答案以上" /\
  clean_answer (clean_answer (u "答案以上以上")) = u "答案".
Proof. split; vm_compute; reflexivity. Qed.

(** C2, amended.  A second application of [clean_answer] returns the same
    text exactly when the first result carries no residue: it contains
    none of the seven marker tokens and none of the five closing phrases,
    and it does not end in the summary fragment.  The fragment inside the
    text does no harm. *)
Theorem clean_answer_idempotent_without_residue (raw_answer : str) :
  clean_answer (clean_answer raw_answer) = clean_answer raw_answer <->
  (forall x, x ∈ markers -> str_in x (clean_answer raw_answer) = false) /\
  (forall x, x ∈ closing_phrases -> str_in x (clean_answer raw_answer) = false) /\
  endswith (clean_answer raw_answer) SUMMARY_SUFFIX = false.
Proof.
  change (clean_answer (clean_answer raw_answer) = clean_answer raw_answer <->
          residue_free (clean_answer raw_answer)).
  split.
  - apply clean_answer_fix_inv.
  - apply clean_answer_fixed;
      [apply clean_answer_stripped | apply clean_answer_collapsed].
Qed.

Lemma clean_answer_idempotent_without_residue_witness :
  let raw_answer := u "【回答】十岁以上的孩子都读过红楼梦。【结束】多余内容" in
  clean_answer raw_answer = u "十岁以上的孩子都读过红楼梦。" /\
  clean_answer (clean_answer raw_answer) = clean_answer raw_answer.
Proof.
  intros raw_answer. split; [vm_compute; reflexivity |].
  apply (proj2 (clean_answer_idempotent_without_residue raw_answer)).
  split; [| split].
  - apply Forall_forall. vm_compute. repeat constructor.
  - apply Forall_forall. vm_compute. repeat constructor.
  - vm_compute. reflexivity.
Defined.

(** C3.  When the raw text contains the end marker, the result is computed
    from the text in front of its first occurrence alone: whatever follows
    the marker can be replaced by any other text without changing the
    result.  The example of the specification evaluates as stated. *)
Theorem clean_answer_discards_after_end :
  (forall (raw_answer : str) (i : nat),
      index raw_answer END_MARKER = Some i ->
      clean_answer raw_answer = after_truncation (strip (take i raw_answer)) /\
      forall tail : str,
        clean_answer (take i raw_answer ++ END_MARKER ++ tail)
        = clean_answer raw_answer) /\
  clean_answer (u "【回答】林黛玉…性格复杂。【结束】多余内容") = u "林黛玉…性格复杂。".
Proof.
  split; [| vm_compute; reflexivity].
  assert (Hgen : forall s i, index s END_MARKER = Some i ->
            clean_answer s = after_truncation (strip (take i s))).
  { intros s i Hi. destruct s as [| c s]; [by destruct i |].
    rewrite clean_answer_unfold.
    by rewrite (proj1 (truncate_at_end_present _ _ Hi)). }
  intros raw i Hi. split; [by apply Hgen |]. intros tail.
  rewrite (Hgen raw i Hi).
  rewrite (Hgen _ i (index_tail_irrelevant _ _ _ tail Hi)).
  pose proof (index_bound _ _ _ Hi) as Hb.
  rewrite take_app_le by (rewrite length_take; lia).
  by rewrite take_take, Nat.min_id.
Qed.

Lemma clean_answer_discards_after_end_witness :
  clean_answer
    (take 13 (u "【回答】林黛玉…性格复杂。【结束】多余内容") ++ END_MARKER ++ u "别的话")
  = clean_answer (u "【回答】林黛玉…性格复杂。【结束】多余内容").
Proof.
  apply (proj1 clean_answer_discards_after_end
           (u "【回答】林黛玉…性格复杂。【结束】多余内容") 13%nat).
  vm_compute. reflexivity.
Defined.

(** Strategy 2 runs as soon as the answer marker occurs once: the text in
    front of the last occurrence is dropped. *)
Lemma keep_last_answer_spec (s : str) (i : nat) :
  index s ANSWER_MARKER = Some i ->
  exists pre rest,
    s = pre ++ ANSWER_MARKER ++ rest /\
    index rest ANSWER_MARKER = None /\
    keep_last_answer s = strip rest.
Proof.
  intros Hi.
  destruct (split_last_spec s ANSWER_MARKER i ANSWER_MARKER_nonempty Hi)
    as (_ & Hnone & pre & Hpre).
  exists pre, (last_part (split s ANSWER_MARKER)).
  split; [done |]. split; [done |].
  by apply (keep_last_answer_present s i).
Qed.

(** C4.  On an input with exactly one answer marker the code keeps only the
    text behind the marker; the text in front of it is lost (the claim
    expects it to be kept). *)
Theorem clean_answer_one_answer_marker :
  split (u "前文【回答】后文") ANSWER_MARKER = [u "前文"; u "后文"] /\
  keep_last_answer (u "前文【回答】后文") = u "后文" /\
  clean_answer (u "前文【回答】后文") = u "后文".
Proof. repeat split; vm_compute; reflexivity. Qed.

End Sanitizer.

(* ===================================================================== *)
(** ** The chapter-deduplicating retriever *)
(* ===================================================================== *)

Module Retriever.

Import Props Engine.

Lemma dedup_step_snoc (docs : list Document) (doc : Document) :
  foldl dedup_step (∅, []) (docs ++ [doc])
  = dedup_step (foldl dedup_step (∅, []) docs) doc.
Proof. apply foldl_snoc. Qed.

(** What the loop has established after the candidates [docs]:
    [seen_chapters] holds the chapters met so far, and [unique_docs] holds,
    in rank order, the first candidate of each of them. *)
Lemma dedup_loop_invariant (docs : list Document) :
  forall seen_chapters unique_docs,
    foldl dedup_step (∅, []) docs = (seen_chapters, unique_docs) ->
    (forall ch, ch ∈ seen_chapters <-> ch ∈ chapter_of <$> docs) /\
    (forall ch, ch ∈ chapter_of <$> docs <-> ch ∈ chapter_of <$> unique_docs) /\
    NoDup (chapter_of <$> unique_docs) /\
    unique_docs `sublist_of` docs /\
    (forall d, d ∈ unique_docs ->
       exists pre post, docs = pre ++ d :: post /\
                        chapter_of d ∉ chapter_of <$> pre).
Proof.
  induction docs as [| doc docs IH] using rev_ind; intros seen uniq.
  - intros [= <- <-]. repeat split; try done; try set_solver; by constructor.
  - rewrite dedup_step_snoc.
    destruct (foldl dedup_step (∅, []) docs) as [seen0 uniq0] eqn:E0.
    destruct (IH seen0 uniq0 eq_refl) as (Hseen & Hcov & Hnd & Hsub & Hfirst).
    unfold dedup_step. destruct (decide (chapter_of doc ∈ seen0)) as [Hin | Hnin].
    + intros [= <- <-]. rewrite fmap_app. simpl.
      assert (Hdoc : chapter_of doc ∈ chapter_of <$> docs) by by apply Hseen.
      repeat split.
      * intros H. apply elem_of_app. left. by apply Hseen.
      * intros [H | ->%list_elem_of_singleton]%elem_of_app; by apply Hseen.
      * intros [H | ->%list_elem_of_singleton]%elem_of_app; by apply Hcov.
      * intros H. apply elem_of_app. left. by apply Hcov.
      * done.
      * by apply sublist_inserts_r.
      * intros d Hd. destruct (Hfirst d Hd) as (pre & post & -> & Hpre).
        exists pre, (post ++ [doc]). by rewrite <- app_assoc.
    + intros [= <- <-]. rewrite !fmap_app. simpl.
      assert (Hdoc : chapter_of doc ∉ chapter_of <$> docs)
        by (intros H; by apply Hnin, Hseen).
      repeat split.
      * intros [->%elem_of_singleton | H]%elem_of_union; apply elem_of_app;
          [right; by left | left; by apply Hseen].
      * intros [H | ->%list_elem_of_singleton]%elem_of_app; apply elem_of_union;
          [right; by apply Hseen | left; by apply elem_of_singleton].
      * intros [H | H]%elem_of_app; apply elem_of_app;
          [left; by apply Hcov | by right].
      * intros [H | H]%elem_of_app; apply elem_of_app;
          [left; by apply Hcov | by right].
      * apply NoDup_app. split; [done |]. split; [| apply NoDup_singleton].
        intros ch Hch ->%list_elem_of_singleton. by apply Hdoc, Hcov.
      * by apply sublist_app.
      * intros d [Hd | ->%list_elem_of_singleton]%elem_of_app.
        -- destruct (Hfirst d Hd) as (pre & post & -> & Hpre).
           exists pre, (post ++ [doc]). by rewrite <- app_assoc.
        -- exists docs, []. done.
Qed.

Lemma dedup_spec (docs : list Document) :
  (forall ch, ch ∈ chapter_of <$> docs <-> ch ∈ chapter_of <$> dedup docs) /\
  NoDup (chapter_of <$> dedup docs) /\
  dedup docs `sublist_of` docs /\
  (forall d, d ∈ dedup docs ->
     exists pre post, docs = pre ++ d :: post /\
                      chapter_of d ∉ chapter_of <$> pre).
Proof.
  unfold dedup.
  destruct (foldl dedup_step (∅, []) docs) as [seen uniq] eqn:E.
  destruct (dedup_loop_invariant docs seen uniq E) as (_ & H1 & H2 & H3 & H4).
  done.
Qed.

Lemma retrieve_ok (self : HongLouRAG) (query : str) (k : Z) (docs : list Document) :
  similarity_search self query k = Ok docs ->
  retrieve self query k = Ok (take 3 (dedup docs)).
Proof. intros H. unfold retrieve. by rewrite H. Qed.

Lemma NoDup_take {A} (l : list A) n : NoDup l -> NoDup (take n l).
Proof. intros H. exact (sublist_NoDup (take n l) l H (sublist_take l n)). Qed.

Lemma elem_of_take_elem_of {A} (l : list A) n x : x ∈ take n l -> x ∈ l.
Proof. intros (i & Hi & _)%elem_of_take. by eapply list_elem_of_lookup_2. Qed.

Lemma first_of_chapter_lt (docs : list Document) (i : nat) :
  first_of_chapter docs i -> (i < length docs)%nat.
Proof. intros (d & Hd & _). by eapply lookup_lt_Some. Qed.

Lemma first_of_chapter_snoc_old (docs : list Document) (doc : Document) (i : nat) :
  (i < length docs)%nat ->
  first_of_chapter (docs ++ [doc]) i <-> first_of_chapter docs i.
Proof.
  intros Hi. unfold first_of_chapter.
  rewrite take_app_le by lia. by rewrite lookup_app_l by done.
Qed.

Lemma first_of_chapter_snoc_new (docs : list Document) (doc : Document) :
  first_of_chapter (docs ++ [doc]) (length docs)
  <-> chapter_of doc ∉ chapter_of <$> docs.
Proof.
  unfold first_of_chapter. rewrite take_app_length, list_lookup_middle by done.
  split; [by intros (d & [= <-] & H) | intros H; by exists doc].
Qed.

Lemma StronglySorted_lt_snoc (idx : list nat) (n : nat) :
  StronglySorted lt idx -> (forall i, i ∈ idx -> (i < n)%nat) ->
  StronglySorted lt (idx ++ [n]).
Proof.
  induction 1 as [| a idx Hs IH Ha]; intros Hlt; cbn [app].
  - repeat constructor.
  - constructor.
    + apply IH. intros i Hi. apply Hlt. by right.
    + apply Forall_app. split; [done |].
      apply Forall_singleton, Hlt. by left.
Qed.

(** A strictly increasing list is fixed by the numbers it holds. *)
Lemma StronglySorted_lt_ext (l1 l2 : list nat) :
  StronglySorted lt l1 -> StronglySorted lt l2 ->
  (forall i, i ∈ l1 <-> i ∈ l2) -> l1 = l2.
Proof.
  intros H1. revert l2.
  induction H1 as [| a l1 Hs1 IH Ha]; intros l2 H2 Heq.
  - destruct l2 as [| b l2]; [done |].
    exfalso. eapply not_elem_of_nil, Heq. by left.
  - destruct H2 as [| b l2 Hs2 Hb].
    { exfalso. eapply not_elem_of_nil, Heq. by left. }
    rewrite Forall_forall in Ha, Hb.
    assert (a = b) as <-.
    { assert (Ha' : a ∈ b :: l2) by (apply Heq; by left).
      assert (Hb' : b ∈ a :: l1) by (apply Heq; by left).
      apply elem_of_cons in Ha' as [-> | Ha']; [done |].
      apply elem_of_cons in Hb' as [-> | Hb']; [done |].
      apply Hb in Ha'. apply Ha in Hb'. lia. }
    f_equal. apply IH; [done |]. intros i. split; intros Hi.
    + assert (H : i ∈ a :: l2) by (apply Heq; by right).
      apply elem_of_cons in H as [-> | H]; [| done].
      apply Ha in Hi. lia.
    + assert (H : i ∈ a :: l1) by (apply Heq; by right).
      apply elem_of_cons in H as [-> | H]; [| done].
      apply Hb in Hi. lia.
Qed.

(** The positions of the candidates the loop keeps: in increasing order,
    exactly the positions of the first candidate of every chapter. *)
Lemma dedup_loop_indices (docs : list Document) :
  forall seen_chapters unique_docs,
    foldl dedup_step (∅, []) docs = (seen_chapters, unique_docs) ->
    exists idx : list nat,
      StronglySorted lt idx /\
      (forall i, i ∈ idx <-> first_of_chapter docs i) /\
      Forall2 (fun i d => docs !! i = Some d) idx unique_docs.
Proof.
  induction docs as [| doc docs IH] using rev_ind; intros seen uniq.
  - intros [= <- <-]. exists []. split; [constructor |]. split; [| constructor].
    intros i. split; [by intros ?%not_elem_of_nil |].
    intros Hi%first_of_chapter_lt. cbn [length] in Hi. lia.
  - rewrite dedup_step_snoc.
    destruct (foldl dedup_step (∅, []) docs) as [seen0 uniq0] eqn:E0.
    destruct (dedup_loop_invariant docs seen0 uniq0 E0) as (Hseen & _).
    destruct (IH seen0 uniq0 eq_refl) as (idx & Hsorted & Hidx & Hdocs).
    assert (Hdocs' : Forall2 (fun i d => (docs ++ [doc]) !! i = Some d) idx uniq0).
    { eapply Forall2_impl; [exact Hdocs |]. intros i d Hi.
      by apply lookup_app_l_Some. }
    assert (Hold : forall i, (i < length docs)%nat ->
              i ∈ idx <-> first_of_chapter (docs ++ [doc]) i).
    { intros i Hi. by rewrite first_of_chapter_snoc_old, Hidx. }
    assert (Hbound : forall i, i ∈ idx -> (i < length docs)%nat).
    { intros i Hi. by apply first_of_chapter_lt, Hidx. }
    unfold dedup_step. destruct (decide (chapter_of doc ∈ seen0)) as [Hin | Hnin].
    + intros [= <- <-]. exists idx. split; [done |]. split; [| done].
      intros i. split.
      * intros Hi. apply Hold; [by apply Hbound | done].
      * intros Hi. pose proof (first_of_chapter_lt _ _ Hi) as Hlt.
        rewrite length_app in Hlt. cbn [length] in Hlt.
        destruct (decide (i = length docs)) as [-> | Hne].
        -- apply first_of_chapter_snoc_new in Hi. exfalso. by apply Hi, Hseen.
        -- apply Hold; [lia | done].
    + intros [= <- <-]. exists (idx ++ [length docs]).
      split; [by apply StronglySorted_lt_snoc |]. split.
      * intros i. rewrite elem_of_app, list_elem_of_singleton. split.
        -- intros [Hi | ->].
           ++ apply Hold; [by apply Hbound | done].
           ++ apply first_of_chapter_snoc_new. intros H. by apply Hnin, Hseen.
        -- intros Hi. pose proof (first_of_chapter_lt _ _ Hi) as Hlt.
           rewrite length_app in Hlt. cbn [length] in Hlt.
           destruct (decide (i = length docs)) as [-> | Hne]; [by right |].
           left. apply Hold; [lia | done].
      * apply Forall2_app; [done |]. constructor; [| constructor].
        by apply list_lookup_middle.
Qed.

Lemma dedup_indices (docs : list Document) :
  exists idx : list nat,
    StronglySorted lt idx /\
    (forall i, i ∈ idx <-> first_of_chapter docs i) /\
    Forall2 (fun i d => docs !! i = Some d) idx (dedup docs).
Proof.
  unfold dedup.
  destruct (foldl dedup_step (∅, []) docs) as [seen uniq] eqn:E.
  exact (dedup_loop_indices docs seen uniq E).
Qed.

(** The positions and the candidates at them leave no choice: any two
    lists that hold, in rank order, the first candidate of every chapter
    are the same list. *)
Lemma first_occurrences_determined (docs : list Document)
    (idx1 idx2 : list nat) (l1 l2 : list Document) :
  StronglySorted lt idx1 -> StronglySorted lt idx2 ->
  (forall i, i ∈ idx1 <-> first_of_chapter docs i) ->
  (forall i, i ∈ idx2 <-> first_of_chapter docs i) ->
  Forall2 (fun i d => docs !! i = Some d) idx1 l1 ->
  Forall2 (fun i d => docs !! i = Some d) idx2 l2 ->
  l1 = l2.
Proof.
  intros Hs1 Hs2 H1 H2 F1 F2.
  assert (idx1 = idx2) as <-.
  { apply StronglySorted_lt_ext; [done | done |]. intros i. by rewrite H1, H2. }
  clear Hs1 Hs2 H1 H2. revert l2 F2.
  induction F1 as [| i d idx l1 Hd F1 IH]; intros l2 F2; inversion F2; subst.
  - done.
  - f_equal; [congruence | by apply IH].
Qed.

(** C1.  Whatever ranked list the similarity search returns, [retrieve]
    returns the first three entries of the list [unique_docs], and
    [unique_docs] holds exactly the candidates at the positions [idx], in
    increasing order of position, where a position is in [idx] exactly when
    its candidate is the first one of its chapter number.  So no two
    returned entries have the same chapter number, at most 3 entries are
    returned and not more than there were candidates, every returned entry
    is the first candidate of its chapter, and the original rank order is
    kept. *)
Theorem retrieve_dedup (self : HongLouRAG) (query : str) (k : Z)
    (docs : list Document) :
  similarity_search self query k = Ok docs ->
  exists (out unique_docs : list Document) (idx : list nat),
    retrieve self query k = Ok out /\
    out = take 3 unique_docs /\
    StronglySorted lt idx /\
    (forall i, i ∈ idx <-> first_of_chapter docs i) /\
    Forall2 (fun i d => docs !! i = Some d) idx unique_docs /\
    NoDup (chapter_of <$> out) /\
    (length out <= 3)%nat /\
    (length out <= length docs)%nat /\
    out `sublist_of` docs /\
    (forall d, d ∈ out ->
       exists pre post, docs = pre ++ d :: post /\
                        chapter_of d ∉ chapter_of <$> pre) /\
    NoDup (chapter_of <$> unique_docs) /\
    unique_docs `sublist_of` docs /\
    (forall ch, ch ∈ chapter_of <$> docs <-> ch ∈ chapter_of <$> unique_docs).
Proof.
  intros Hsearch.
  destruct (dedup_indices docs) as (idx & Hsorted & Hidx & Hat).
  exists (take 3 (dedup docs)), (dedup docs), idx.
  destruct (dedup_spec docs) as (Hcov & Hnd & Hsub & Hfirst).
  assert (Hsub3 : take 3 (dedup docs) `sublist_of` docs).
  { etrans; [apply sublist_take | done]. }
  split; [by apply retrieve_ok |].
  split; [done |]. split; [done |]. split; [done |]. split; [done |].
  repeat split; try done.
  - rewrite fmap_take. by apply NoDup_take.
  - rewrite length_take. lia.
  - by apply sublist_length.
  - intros d Hd. by apply Hfirst, (elem_of_take_elem_of _ 3).
  - by apply Hcov.
  - by apply Hcov.
Qed.

Lemma retrieve_dedup_witness :
  let chapters := [1; 2; 3; 4; 1]%Z in
  let docs := map (fun c => mkDocument (u "原文") {[ "chapter" := VInt c ]}) chapters in
  let self := mkRAG (fun _ _ => Ok docs) (fun _ => Ok (u "答")) in
  exists (out unique_docs : list Document) (idx : list nat),
    retrieve self (u "黛玉葬花") 5 = Ok out /\
    out = take 3 unique_docs /\
    StronglySorted lt idx /\
    (forall i, i ∈ idx <-> first_of_chapter docs i) /\
    Forall2 (fun i d => docs !! i = Some d) idx unique_docs /\
    NoDup (chapter_of <$> out) /\
    (length out <= 3)%nat /\
    (length out <= length docs)%nat /\
    out `sublist_of` docs /\
    (forall d, d ∈ out ->
       exists pre post, docs = pre ++ d :: post /\
                        chapter_of d ∉ chapter_of <$> pre) /\
    NoDup (chapter_of <$> unique_docs) /\
    unique_docs `sublist_of` docs /\
    (forall ch, ch ∈ chapter_of <$> docs <-> ch ∈ chapter_of <$> unique_docs).
Proof.
  intros chapters docs self.
  apply (retrieve_dedup self (u "黛玉葬花") 5 docs). reflexivity.
Defined.

(** Candidates of chapters 1, 2, 3, 4, 1: the first three chapters are
    returned, not the last three. *)
Example retrieve_example_first_three :
  let doc_of c := mkDocument (u "原文") {[ "chapter" := VInt c ]} in
  let self := mkRAG (fun _ _ => Ok (map doc_of [1; 2; 3; 4; 1]%Z))
                    (fun _ => Ok (u "答")) in
  retrieve self (u "黛玉葬花") 5 = Ok (map doc_of [1; 2; 3]%Z).
Proof. vm_compute. reflexivity. Qed.

(** The example of the specification: candidates from chapters
    3, 3, 5, 5, 8, 12 with [k = 6] give chapters 3, 5, 8 in that order. *)
Example retrieve_example :
  let doc_of c := mkDocument (u "原文") {[ "chapter" := VInt c ]} in
  let self := mkRAG (fun _ _ => Ok (map doc_of [3; 3; 5; 5; 8; 12]%Z))
                    (fun _ => Ok (u "答")) in
  retrieve self (u "黛玉葬花") 6 = Ok (map doc_of [3; 5; 8]%Z).
Proof. vm_compute. reflexivity. Qed.


Lemma chapter_of_missing (d : Document) :
  metadata d !! "chapter" = None -> chapter_of d = VInt 0.
Proof. intros H. unfold chapter_of, dict_get. by rewrite H. Qed.

Lemma chapter_of_present (d : Document) (v : pyval) :
  metadata d !! "chapter" = Some v -> chapter_of d = v.
Proof. intros H. unfold chapter_of, dict_get. by rewrite H. Qed.

(** Entries with pairwise different keys of which all have the same key:
    there is at most one. *)
Lemma same_key_at_most_one {A B} (f : A -> B) (l : list A) (b : B) :
  NoDup (f <$> l) -> (forall x, x ∈ l -> f x = b) -> (length l <= 1)%nat.
Proof.
  destruct l as [| x [| y l]]; simpl; [lia | lia |].
  intros Hnd Hall. exfalso.
  apply NoDup_cons in Hnd as [Hx _]. apply Hx.
  rewrite (Hall x) by left. rewrite (Hall y) by (right; left). left.
Qed.

(** C10.  A candidate without a ['chapter'] key counts as chapter 0.  Of the
    candidates without the key at most one is returned, and only the first
    of them in rank order (no candidate in front of it lacks the key or has
    chapter 0); when it is returned, no candidate whose chapter number is
    literally 0 is returned with it. *)
Theorem retrieve_missing_chapter (self : HongLouRAG) (query : str) (k : Z)
    (docs : list Document) :
  similarity_search self query k = Ok docs ->
  exists out,
    retrieve self query k = Ok out /\
    (forall d, metadata d !! "chapter" = None -> chapter_of d = VInt 0) /\
    (length (filter (fun d => metadata d !! "chapter" = None) out) <= 1)%nat /\
    (forall d, d ∈ out -> metadata d !! "chapter" = None ->
       (exists pre post,
          docs = pre ++ d :: post /\
          forall d', d' ∈ pre ->
            metadata d' !! "chapter" <> None /\
            metadata d' !! "chapter" <> Some (VInt 0)) /\
       (forall d', d' ∈ docs ->
          metadata d' !! "chapter" = Some (VInt 0) -> d' ∉ out)).
Proof.
  intros Hsearch. exists (take 3 (dedup docs)).
  destruct (dedup_spec docs) as (Hcov & Hnd & Hsub & Hfirst).
  assert (Hnd3 : NoDup (chapter_of <$> take 3 (dedup docs))).
  { rewrite fmap_take. by apply NoDup_take. }
  split; [by apply retrieve_ok |]. split; [apply chapter_of_missing |]. split.
  - apply (same_key_at_most_one chapter_of _ (VInt 0)).
    + eapply sublist_NoDup; [exact Hnd3 |].
      apply fmap_sublist, sublist_filter.
    + intros d [Hd _]%list_elem_of_filter. by apply chapter_of_missing.
  - intros d Hd Hmiss. pose proof (chapter_of_missing d Hmiss) as Hch. split.
    + destruct (Hfirst d (elem_of_take_elem_of _ 3 _ Hd)) as (pre & post & -> & Hpre).
      exists pre, post. split; [done |]. intros d' Hd'.
      rewrite Hch in Hpre. split.
      * intros Hnone. apply Hpre. apply list_elem_of_fmap.
        exists d'. split; [| done]. symmetry. by apply chapter_of_missing.
      * intros Hzero. apply Hpre. apply list_elem_of_fmap.
        exists d'. split; [| done]. symmetry. by apply chapter_of_present.
    + intros d' _ Hzero Hd'.
      assert (Hne : d <> d') by (intros ->; congruence).
      pose proof (chapter_of_present d' _ Hzero) as Hch'.
      apply list_elem_of_split in Hd as (l1 & l2 & Hsplit).
      rewrite Hsplit in Hnd3, Hd'.
      rewrite fmap_app, fmap_cons in Hnd3.
      apply NoDup_app in Hnd3 as (_ & Hl1 & Hl2%NoDup_cons).
      destruct Hl2 as [Hl2 _].
      apply elem_of_app in Hd' as [Hd' | [-> | Hd']%elem_of_cons]; [| done |].
      * apply (Hl1 (chapter_of d')); [by apply list_elem_of_fmap_2 |].
        rewrite Hch', <- Hch. left.
      * apply Hl2. rewrite Hch, <- Hch'. by apply list_elem_of_fmap_2.
Qed.

Lemma retrieve_missing_chapter_witness :
  let no_key := mkDocument (u "甲") ∅ in
  let no_key' := mkDocument (u "乙") ∅ in
  let zero := mkDocument (u "丙") {[ "chapter" := VInt 0 ]} in
  let docs := [mkDocument (u "丁") {[ "chapter" := VInt 7 ]}; no_key; zero; no_key'] in
  let self := mkRAG (fun _ _ => Ok docs) (fun _ => Ok (u "答")) in
  exists out,
    retrieve self (u "问") 4 = Ok out /\
    (forall d, metadata d !! "chapter" = None -> chapter_of d = VInt 0) /\
    (length (filter (fun d => metadata d !! "chapter" = None) out) <= 1)%nat /\
    (forall d, d ∈ out -> metadata d !! "chapter" = None ->
       (exists pre post,
          docs = pre ++ d :: post /\
          forall d', d' ∈ pre ->
            metadata d' !! "chapter" <> None /\
            metadata d' !! "chapter" <> Some (VInt 0)) /\
       (forall d', d' ∈ docs ->
          metadata d' !! "chapter" = Some (VInt 0) -> d' ∉ out)).
Proof.
  intros no_key no_key' zero docs self.
  apply (retrieve_missing_chapter self (u "问") 4 docs). reflexivity.
Defined.

(** With the candidates of the witness: the second candidate without the
    key and the candidate of chapter 0 are both dropped. *)
Example retrieve_missing_chapter_example :
  let no_key := mkDocument (u "甲") ∅ in
  let no_key' := mkDocument (u "乙") ∅ in
  let zero := mkDocument (u "丙") {[ "chapter" := VInt 0 ]} in
  let seven := mkDocument (u "丁") {[ "chapter" := VInt 7 ]} in
  let self := mkRAG (fun _ _ => Ok [seven; no_key; zero; no_key'])
                    (fun _ => Ok (u "答")) in
  retrieve self (u "问") 4 = Ok [seven; no_key].
Proof. vm_compute. reflexivity. Qed.

(** The other way round: a candidate of chapter 0 ranked first takes the
    place, and the candidate without the key is dropped. *)
Example retrieve_zero_first_example :
  let no_key := mkDocument (u "甲") ∅ in
  let zero := mkDocument (u "丙") {[ "chapter" := VInt 0 ]} in
  let self := mkRAG (fun _ _ => Ok [zero; no_key]) (fun _ => Ok (u "答")) in
  retrieve self (u "问") 4 = Ok [zero].
Proof. vm_compute. reflexivity. Qed.

End Retriever.

(* ===================================================================== *)
(** ** The prompt assembler *)
(* ===================================================================== *)

Module Prompt.

Import Props Engine.

Lemma rag_template_fields :
  rag_template
  = prompt_head ++ u "{context}" ++ prompt_mid ++ u "{question}" ++ prompt_tail.
Proof. vm_compute. reflexivity. Qed.

(** [format] puts the two values in the place of the two fields and copies
    the rest of the template; the values are not scanned. *)
Lemma build_prompt_eq (context query : str) :
  build_prompt context query
  = Ok (prompt_head ++ context ++ prompt_mid ++ query ++ prompt_tail).
Proof. vm_compute. reflexivity. Qed.

Lemma context_parts_lookup (docs : list Document) (i : nat) :
  context_parts docs !! i = context_part (S i) <$> docs !! i.
Proof. unfold context_parts. by rewrite list_lookup_imap. Qed.

Lemma generate_ok (self : HongLouRAG) (query : str) (docs : list Document) :
  retrieve self query 4 = Ok docs ->
  generate self query =
    let context := build_context docs in
    let prompt := prompt_head ++ context ++ prompt_mid ++ query ++ prompt_tail in
    finish_generate query prompt docs context (llm self prompt).
Proof.
  intros Hdocs. unfold generate. rewrite Hdocs. cbn [mbind result_bind].
  rewrite build_prompt_eq. cbn [mbind result_bind]. unfold finish_generate.
  by destruct (llm self _).
Qed.

Lemma join_cons (sep p : str) (ps : list str) :
  join sep (p :: ps) = p ++ concat ((fun q => sep ++ q) <$> ps).
Proof.
  revert p. induction ps as [| q ps IH]; intros p.
  - cbn. by rewrite app_nil_r.
  - change (join sep (p :: q :: ps)) with (p ++ sep ++ join sep (q :: ps)).
    rewrite IH. cbn [fmap list_fmap concat]. by rewrite <- app_assoc.
Qed.

Lemma py_str_dict_get (m : gmap string pyval) (key : string) (dflt : str) :
  py_str (dict_get m key (VStr dflt)) = field_text (m !! key) dflt.
Proof. unfold dict_get, field_text. by destruct (m !! key) as [[] |]. Qed.

Lemma context_part_eq (i : nat) (doc : Document) :
  context_part i doc
  = u "[" ++ u (pretty i) ++ u "] "
    ++ field_text (metadata doc !! "chapter_title") (u "unknown")
    ++ u "（"
    ++ field_text (metadata doc !! "type") (u "正文")
    ++ u "）：" ++ take 300 (page_content doc) ++ u "...".
Proof. unfold context_part. by rewrite !py_str_dict_get. Qed.

Lemma build_context_eq (docs : list Document) :
  build_context docs
  = match context_parts docs with
    | [] => []
    | p :: ps => p ++ concat ((fun q => [NL; NL] ++ q) <$> ps)
    end.
Proof.
  change (build_context docs) with (join [NL; NL] (context_parts docs)).
  destruct (context_parts docs) as [| p ps]; [done | apply join_cons].
Qed.

(** C7.  [generate] renders the i-th retrieved passage (counting from 1) as
    [[i] chapter_title（type）：content...] with the content cut to its first
    300 characters -- the title and the type as the metadata hold them,
    [unknown] and 正文 where they are missing --, puts the rendered passages
    one after the other with an empty line (two line breaks) between two
    of them, puts this block and the question in the places of the two
    fields of the fixed template, and hands exactly that text to the
    model: the prompt is determined by the passages and the question
    alone. *)
Theorem prompt_assembly (self : HongLouRAG) (query : str) (docs : list Document) :
  retrieve self query 4 = Ok docs ->
  exists (parts : list str) (context prompt : str),
    length parts = length docs /\
    (forall i doc, docs !! i = Some doc ->
       parts !! i =
         Some (u "[" ++ u (pretty (S i)) ++ u "] "
               ++ field_text (metadata doc !! "chapter_title") (u "unknown")
               ++ u "（"
               ++ field_text (metadata doc !! "type") (u "正文")
               ++ u "）：" ++ take 300 (page_content doc) ++ u "...")) /\
    context = match parts with
              | [] => []
              | p :: ps => p ++ concat ((fun q => [NL; NL] ++ q) <$> ps)
              end /\
    rag_template
      = prompt_head ++ u "{context}" ++ prompt_mid ++ u "{question}" ++ prompt_tail /\
    prompt = prompt_head ++ context ++ prompt_mid ++ query ++ prompt_tail /\
    Format.format rag_template [(u "context", context); (u "question", query)]
      = Ok prompt /\
    generate self query = finish_generate query prompt docs context (llm self prompt).
Proof.
  intros Hdocs.
  exists (context_parts docs), (build_context docs),
    (prompt_head ++ build_context docs ++ prompt_mid ++ query ++ prompt_tail).
  split; [| split; [| split; [| split; [| split; [| split]]]]].
  - unfold context_parts. apply length_imap.
  - intros i doc Hi. rewrite context_parts_lookup, Hi. cbn [fmap option_fmap option_map].
    by rewrite context_part_eq.
  - apply build_context_eq.
  - apply rag_template_fields.
  - reflexivity.
  - apply build_prompt_eq.
  - by apply generate_ok.
Qed.

Lemma prompt_assembly_witness :
  let doc1 := mkDocument (u "黛玉方进入房时")
                {[ "chapter" := VInt 3; "chapter_title" := VStr (u "第三回");
                   "type" := VStr (u "正文") ]} in
  let doc2 := mkDocument (u "[脂评] 写黛玉自幼之心机")
                {[ "chapter" := VInt 5; "type" := VStr (u "脂评") ]} in
  let self := mkRAG (fun _ _ => Ok [doc1; doc2]) (fun p => Ok p) in
  let query := u "黛玉初进贾府" in
  let context := u "[1] 第三回（正文）：黛玉方进入房时...

[2] unknown（脂评）：[脂评] 写黛玉自幼之心机..." in
  exists prompt,
    prompt = prompt_head ++ context ++ prompt_mid ++ query ++ prompt_tail /\
    llm self prompt = Ok prompt /\
    generate self query
    = finish_generate query prompt [doc1; doc2] context (llm self prompt).
Proof.
  intros doc1 doc2 self query context.
  assert (Hdocs : retrieve self query 4 = Ok [doc1; doc2]) by (vm_compute; reflexivity).
  destruct (prompt_assembly self query [doc1; doc2] Hdocs)
    as (parts & ctx & prm & Hlen & Hparts & Hctx & _ & Hprm & _ & Hgen).
  destruct parts as [| p1 [| p2 [| p3 parts]]]; try discriminate Hlen.
  pose proof (Hparts 0%nat doc1 eq_refl) as H1.
  pose proof (Hparts 1%nat doc2 eq_refl) as H2.
  injection H1 as ->. injection H2 as ->.
  assert (Hc : ctx = context) by (rewrite Hctx; vm_compute; reflexivity).
  rewrite Hc in Hprm, Hgen. exists prm.
  split; [exact Hprm |]. split; [reflexivity | exact Hgen].
Defined.

(** Two passages, the second one without a chapter title. *)
Example build_context_example :
  let doc1 := mkDocument (u "黛玉方进入房时")
                {[ "chapter" := VInt 3; "chapter_title" := VStr (u "第三回");
                   "type" := VStr (u "正文") ]} in
  let doc2 := mkDocument (u "[脂评] 写黛玉自幼之心机")
                {[ "chapter" := VInt 5; "type" := VStr (u "脂评") ]} in
  build_context [doc1; doc2]
  = u "[1] 第三回（正文）：黛玉方进入房时...

[2] unknown（脂评）：[脂评] 写黛玉自幼之心机...".
Proof. vm_compute. reflexivity. Qed.

End Prompt.

(* ===================================================================== *)
(** ** Query submission and the session history *)
(* ===================================================================== *)

Module Session.

Import Props Engine App.

Lemma generate_unfold (self : HongLouRAG) (query : str) :
  generate self query =
    match retrieve self query 4 with
    | Ok docs =>
        let context := build_context docs in
        let prompt := prompt_head ++ context ++ prompt_mid ++ query ++ prompt_tail in
        finish_generate query prompt docs context (llm self prompt)
    | Raise e => Raise e
    end.
Proof.
  destruct (retrieve self query 4) as [docs | e] eqn:E.
  - by apply Prompt.generate_ok.
  - unfold generate. by rewrite E.
Qed.

Lemma handle_submit_unfold (rag : HongLouRAG) (k_value : Z) (user_input : str)
    (st : SessionState) :
  truthy user_input = true ->
  handle_submit rag k_value true user_input st =
    let asked := messages st ++ [mkMessage User user_input None] in
    match answer_turn rag user_input with
    | Ok m => (mkSession (asked ++ [m]) None, Rerun)
    | Raise e => (mkSession (asked ++ [apology e]) None, Continue)
    end.
Proof. intros H. unfold handle_submit. by rewrite H. Qed.

Lemma answer_turn_unfold (rag : HongLouRAG) (user_input : str) :
  answer_turn rag user_input =
    match generate rag user_input with
    | Ok (GenAnswer _ raw_answer sources _) =>
        Ok (mkMessage Assistant (with_fallback raw_answer (clean_answer raw_answer))
              (Some (source_of <$> sources)))
    | Ok (GenError _) => Raise (KeyError "answer")
    | Raise e => Raise e
    end.
Proof.
  unfold answer_turn. destruct (generate rag user_input) as [[] | e]; done.
Qed.

(** C5.  When generation succeeds with the raw answer [raw_answer], the
    stored answer is the first 500 characters of [raw_answer] (all of it
    when it has fewer than 500) if the cleaned text has fewer than 50
    characters and [raw_answer] more than 100; otherwise it is the cleaned
    text itself. *)
Theorem fallback_on_short_answer (rag : HongLouRAG) (k_value : Z)
    (user_input : str) (st : SessionState)
    (query raw_answer : str) (sources : list Document) (context : str) :
  truthy user_input = true ->
  generate rag user_input = Ok (GenAnswer query raw_answer sources context) ->
  let cleaned_answer := clean_answer raw_answer in
  exists reply,
    last (messages (handle_submit rag k_value true user_input st).1) = Some reply /\
    ((length cleaned_answer < 50)%nat /\ (100 < length raw_answer)%nat ->
       content reply = take 500 raw_answer /\
       ((length raw_answer < 500)%nat -> content reply = raw_answer)) /\
    (~ ((length cleaned_answer < 50)%nat /\ (100 < length raw_answer)%nat) ->
       content reply = cleaned_answer).
Proof.
  intros Hin Hgen cleaned.
  rewrite handle_submit_unfold by done. rewrite answer_turn_unfold, Hgen.
  eexists. split; [cbn; by rewrite last_snoc |]. cbn [content]. unfold with_fallback.
  split.
  - intros [H1 H2]. apply Nat.ltb_lt in H1, H2. fold cleaned. rewrite H1, H2.
    split; [done |]. intros Hl. cbn. apply take_ge. lia.
  - intros Hn. fold cleaned.
    destruct (length cleaned <? 50)%nat eqn:E1; [| done].
    destruct (100 <? length raw_answer)%nat eqn:E2; [| done].
    exfalso. apply Hn. by split; apply Nat.ltb_lt.
Qed.


Lemma fallback_on_short_answer_witness :
  let raw_answer := END_MARKER ++ replicate 120 97 in
  let rag := mkRAG (fun _ _ => Ok []) (fun _ => Ok raw_answer) in
  let st := mkSession [] None in
  let cleaned_answer := clean_answer raw_answer in
  exists reply,
    last (messages (handle_submit rag 3 true (u "黛玉为何葬花") st).1) = Some reply /\
    ((length cleaned_answer < 50)%nat /\ (100 < length raw_answer)%nat ->
       content reply = take 500 raw_answer /\
       ((length raw_answer < 500)%nat -> content reply = raw_answer)) /\
    (~ ((length cleaned_answer < 50)%nat /\ (100 < length raw_answer)%nat) ->
       content reply = cleaned_answer).
Proof.
  intros raw_answer rag st.
  apply (fallback_on_short_answer rag 3 (u "黛玉为何葬花") st
           (u "黛玉为何葬花") raw_answer [] []);
    [reflexivity | vm_compute; reflexivity].
Defined.

(** The spec's case: 124 raw characters that clean to nothing are stored as
    they are. *)
Example fallback_example :
  let raw_answer := END_MARKER ++ replicate 120 97 in
  clean_answer raw_answer = [] /\
  with_fallback raw_answer (clean_answer raw_answer) = raw_answer.
Proof. split; vm_compute; reflexivity. Qed.

(** C8, as stated, fails where the fallback of lines 254-255 applies: the
    model call succeeds, the cleaned text is empty, and the turn that is
    stored carries the raw answer, end marker included, not the cleaned
    answer. *)
Lemma stored_answer_not_cleaned :
  let raw_answer := END_MARKER ++ replicate 120 97 in
  let rag := mkRAG (fun _ _ => Ok []) (fun _ => Ok raw_answer) in
  let user_input := u "黛玉为何葬花" in
  generate rag user_input = Ok (GenAnswer user_input raw_answer [] []) /\
  clean_answer raw_answer = [] /\
  exists reply,
    last (messages (handle_submit rag 3 true user_input (mkSession [] None)).1)
    = Some reply /\
    content reply = raw_answer /\
    content reply <> clean_answer raw_answer.
Proof.
  intros raw_answer rag user_input.
  split; [vm_compute; reflexivity |]. split; [vm_compute; reflexivity |].
  exists (mkMessage Assistant raw_answer (Some [])).
  split; [vm_compute; reflexivity |]. split; [reflexivity |].
  vm_compute. discriminate.
Qed.

Lemma generate_sources (self : HongLouRAG) (query q raw_answer context : str)
    (sources : list Document) :
  generate self query = Ok (GenAnswer q raw_answer sources context) ->
  retrieve self query 4 = Ok sources.
Proof.
  rewrite generate_unfold.
  destruct (retrieve self query 4) as [docs | e]; [| discriminate].
  cbv zeta. unfold finish_generate.
  destruct (llm self _); [| discriminate]. by intros [= _ _ -> _].
Qed.

(** C8, amended.  A submission with a non-empty question appends the user
    turn and then exactly one assistant turn.  If [generate] returns an
    answer, that turn carries the cleaned answer -- or, where the cleaned
    text has fewer than 50 characters and the raw answer more than 100,
    the first 500 characters of the raw answer, as they are -- and one
    entry per retrieved passage with its chapter title, its type and its
    content.  If generation fails -- the model call raises, so that
    [generate] returns its error dictionary, or the retrieval raises --
    the turn is the apology, without cited passages, and the script goes
    on. *)
Theorem submit_appends_two_turns (rag : HongLouRAG) (k_value : Z)
    (user_input : str) (st : SessionState) :
  truthy user_input = true ->
  exists reply ctl,
    handle_submit rag k_value true user_input st
    = (mkSession (messages st ++ [mkMessage User user_input None; reply]) None, ctl) /\
    length (messages (handle_submit rag k_value true user_input st).1)
    = (length (messages st) + 2)%nat /\
    role reply = Assistant /\
    match generate rag user_input with
    | Ok (GenAnswer _ raw_answer sources _) =>
        ((length (clean_answer raw_answer) < 50)%nat /\ (100 < length raw_answer)%nat ->
           content reply = take 500 raw_answer) /\
        (~ ((length (clean_answer raw_answer) < 50)%nat /\ (100 < length raw_answer)%nat) ->
           content reply = clean_answer raw_answer) /\
        retrieve rag user_input 4 = Ok sources /\
        (exists cited,
           msg_sources reply = Some cited /\
           length cited = length sources /\
           forall i d, sources !! i = Some d ->
             cited !! i
             = Some {| src_chapter :=
                         default (VStr (u "未知")) (metadata d !! "chapter_title");
                       src_type := default (VStr (u "正文")) (metadata d !! "type");
                       src_content := page_content d |}) /\
        ctl = Rerun
    | Ok (GenError _) =>
        content reply = u "抱歉，查阅典籍时遇到阻碍：" ++ u "'answer'" /\
        msg_sources reply = None /\
        ctl = Continue
    | Raise e =>
        content reply = u "抱歉，查阅典籍时遇到阻碍：" ++ exn_str e /\
        msg_sources reply = None /\
        ctl = Continue
    end /\
    (forall docs e,
       retrieve rag user_input 4 = Ok docs ->
       llm rag (prompt_head ++ build_context docs ++ prompt_mid ++ user_input
                ++ prompt_tail) = Raise e ->
       generate rag user_input = Ok (GenError (exn_str e))) /\
    (forall e,
       similarity_search rag user_input 4 = Raise e ->
       generate rag user_input = Raise e).
Proof.
  intros Hin. rewrite handle_submit_unfold by done. rewrite answer_turn_unfold.
  assert (Hllm : forall docs e,
    retrieve rag user_input 4 = Ok docs ->
    llm rag (prompt_head ++ build_context docs ++ prompt_mid ++ user_input
             ++ prompt_tail) = Raise e ->
    generate rag user_input = Ok (GenError (exn_str e))).
  { intros docs e Hdocs He. rewrite generate_unfold, Hdocs. cbn zeta.
    by rewrite He. }
  assert (Hsearch : forall e,
    similarity_search rag user_input 4 = Raise e ->
    generate rag user_input = Raise e).
  { intros e He. rewrite generate_unfold. unfold retrieve. by rewrite He. }
  pose proof (generate_sources rag user_input) as Hsrc.
  destruct (generate rag user_input) as [[q raw srcs ctx | err] | e]; cbn zeta.
  - exists (mkMessage Assistant (with_fallback raw (clean_answer raw))
              (Some (source_of <$> srcs))), Rerun.
    split; [by rewrite <- app_assoc |].
    split; [cbn [fst messages]; rewrite !length_app; cbn [length]; lia |].
    split; [reflexivity |]. split; [| by split].
    cbn [content msg_sources]. unfold with_fallback.
    split; [| split; [| split; [| split]]].
    + intros [H1 H2]. apply Nat.ltb_lt in H1, H2. by rewrite H1, H2.
    + intros Hn.
      destruct (length (clean_answer raw) <? 50)%nat eqn:E1; [| done].
      destruct (100 <? length raw)%nat eqn:E2; [| done].
      exfalso. apply Hn. by split; apply Nat.ltb_lt.
    + by eapply Hsrc.
    + exists (source_of <$> srcs). split; [done |].
      split; [apply length_fmap |].
      intros i d Hi. by rewrite list_lookup_fmap, Hi.
    + reflexivity.
  - exists (apology (KeyError "answer")), Continue.
    split; [by rewrite <- app_assoc |].
    split; [cbn [fst messages]; rewrite !length_app; cbn [length]; lia |].
    split; [reflexivity |]. split; [| by split].
    split; [vm_compute; reflexivity | by split].
  - exists (apology e), Continue.
    split; [by rewrite <- app_assoc |].
    split; [cbn [fst messages]; rewrite !length_app; cbn [length]; lia |].
    split; [reflexivity |]. split; [| by split].
    split; [reflexivity | by split].
Qed.


Lemma submit_appends_two_turns_witness :
  let doc := mkDocument (u "黛玉方进入房时")
               {[ "chapter" := VInt 3; "chapter_title" := VStr (u "第三回") ]} in
  let rag := mkRAG (fun _ _ => Ok [doc]) (fun _ => Ok (u "【回答】见于第三回。【结束】")) in
  let st := mkSession [mkMessage User (u "宝玉是谁") None] (Some (u "宝玉是谁")) in
  let user_input := u "黛玉初进贾府" in
  exists reply ctl,
    handle_submit rag 3 true user_input st
    = (mkSession (messages st ++ [mkMessage User user_input None; reply]) None, ctl) /\
    length (messages (handle_submit rag 3 true user_input st).1)
    = (length (messages st) + 2)%nat /\
    role reply = Assistant /\
    match generate rag user_input with
    | Ok (GenAnswer _ raw_answer sources _) =>
        ((length (clean_answer raw_answer) < 50)%nat /\ (100 < length raw_answer)%nat ->
           content reply = take 500 raw_answer) /\
        (~ ((length (clean_answer raw_answer) < 50)%nat /\ (100 < length raw_answer)%nat) ->
           content reply = clean_answer raw_answer) /\
        retrieve rag user_input 4 = Ok sources /\
        (exists cited,
           msg_sources reply = Some cited /\
           length cited = length sources /\
           forall i d, sources !! i = Some d ->
             cited !! i
             = Some {| src_chapter :=
                         default (VStr (u "未知")) (metadata d !! "chapter_title");
                       src_type := default (VStr (u "正文")) (metadata d !! "type");
                       src_content := page_content d |}) /\
        ctl = Rerun
    | Ok (GenError _) =>
        content reply = u "抱歉，查阅典籍时遇到阻碍：" ++ u "'answer'" /\
        msg_sources reply = None /\
        ctl = Continue
    | Raise e =>
        content reply = u "抱歉，查阅典籍时遇到阻碍：" ++ exn_str e /\
        msg_sources reply = None /\
        ctl = Continue
    end /\
    (forall docs e,
       retrieve rag user_input 4 = Ok docs ->
       llm rag (prompt_head ++ build_context docs ++ prompt_mid ++ user_input
                ++ prompt_tail) = Raise e ->
       generate rag user_input = Ok (GenError (exn_str e))) /\
    (forall e,
       similarity_search rag user_input 4 = Raise e ->
       generate rag user_input = Raise e).
Proof.
  intros doc rag st user_input.
  apply (submit_appends_two_turns rag 3 user_input st). reflexivity.
Defined.

(** A failed model call and a successful one, on the same history. *)
Example submit_examples :
  let st := mkSession [] None in
  let failing := mkRAG (fun _ _ => Ok []) (fun _ => Raise (Exception (u "CUDA out of memory"))) in
  let working := mkRAG (fun _ _ => Ok []) (fun _ => Ok (u "【回答】见于第二十七回。【结束】")) in
  handle_submit failing 3 true (u "黛玉为何葬花") st
  = (mkSession [mkMessage User (u "黛玉为何葬花") None;
                mkMessage Assistant (u "抱歉，查阅典籍时遇到阻碍：'answer'") None] None,
     Continue) /\
  handle_submit working 3 true (u "黛玉为何葬花") st
  = (mkSession [mkMessage User (u "黛玉为何葬花") None;
                mkMessage Assistant (u "见于第二十七回。") (Some [])] None,
     Rerun).
Proof. split; vm_compute; reflexivity. Qed.

(** C9.  The slider value read by [main] does not reach the engine: the
    submission block gives the same state for any two slider values, and
    [generate] asks the index for [k = 4] candidates whatever the slider
    says, so that only the index's reply for [k = 4] matters. *)
Theorem slider_has_no_effect (rag : HongLouRAG) (k_value k_value' : Z)
    (submit : bool) (user_input : str) (st : SessionState) :
  handle_submit rag k_value submit user_input st
  = handle_submit rag k_value' submit user_input st /\
  generate rag user_input =
    match retrieve rag user_input 4 with
    | Ok docs =>
        let context := build_context docs in
        let prompt := prompt_head ++ context ++ prompt_mid ++ user_input
                      ++ prompt_tail in
        finish_generate user_input prompt docs context (llm rag prompt)
    | Raise e => Raise e
    end /\
  forall rag' : HongLouRAG,
    llm rag' = llm rag ->
    similarity_search rag' user_input 4 = similarity_search rag user_input 4 ->
    generate rag' user_input = generate rag user_input /\
    handle_submit rag' k_value' submit user_input st
    = handle_submit rag k_value submit user_input st.
Proof.
  split; [reflexivity |]. split; [apply generate_unfold |].
  intros rag' Hllm Hsearch.
  assert (Hgen : generate rag' user_input = generate rag user_input).
  { rewrite !generate_unfold. unfold retrieve. rewrite Hsearch, Hllm. done. }
  split; [done |]. unfold handle_submit. rewrite !answer_turn_unfold.
  by rewrite Hgen.
Qed.

Lemma slider_has_no_effect_witness :
  let doc := mkDocument (u "黛玉葬花") {[ "chapter" := VInt 27 ]} in
  let rag := mkRAG (fun _ k => if (k =? 4)%Z then Ok [doc] else Ok [])
                   (fun _ => Ok (u "见于第二十七回。")) in
  let rag' := mkRAG (fun _ _ => Ok [doc]) (fun _ => Ok (u "见于第二十七回。")) in
  let st := mkSession [] None in
  handle_submit rag' 5 true (u "黛玉为何葬花") st
  = handle_submit rag 2 true (u "黛玉为何葬花") st.
Proof.
  intros doc rag rag' st.
  apply (proj2 (proj2 (slider_has_no_effect rag 2 5 true (u "黛玉为何葬花") st)) rag');
    reflexivity.
Defined.

End Session.

(* ===================================================================== *)
(** ** Chapter labels, the page and the export *)
(* ===================================================================== *)

Module ViewFacts.

Import Props PyStrFacts Engine App View.

Lemma HUI_not_numeral : is_numeral HUI = false.
Proof. reflexivity. Qed.

Lemma match_numerals_hui_sound t n :
  match_numerals_hui t = Some n ->
  exists ns, take n t = ns ++ [HUI] /\
             Forall (fun c => is_numeral c = true) ns /\
             n = S (length ns) /\ (n <= length t)%nat.
Proof.
  revert n. induction t as [| c t IH]; intros n; [done |]. cbn [match_numerals_hui].
  assert (Hstop : (if c =? HUI then Some 1%nat else None) = Some n ->
    exists ns, take n (c :: t) = ns ++ [HUI] /\
               Forall (fun c => is_numeral c = true) ns /\
               n = S (length ns) /\ (n <= length (c :: t))%nat).
  { destruct (c =? HUI) eqn:Ec; [| done]. intros [= <-].
    apply N.eqb_eq in Ec as ->. exists []. simpl. repeat split; [constructor | lia]. }
  destruct (is_numeral c) eqn:Hc; [| exact Hstop].
  destruct (match_numerals_hui t) as [k |] eqn:Ek; [| exact Hstop].
  intros [= <-]. destruct (IH k eq_refl) as (ns & Htake & Hns & -> & Hlen).
  exists (c :: ns). simpl. rewrite Htake. repeat split.
  - by constructor.
  - simpl in Hlen. lia.
Qed.

Lemma match_numerals_hui_complete ns post :
  Forall (fun c => is_numeral c = true) ns ->
  match_numerals_hui (ns ++ [HUI] ++ post) = Some (S (length ns)).
Proof.
  induction 1 as [| c ns Hc Hns IH]; cbn [app match_numerals_hui length].
  - rewrite HUI_not_numeral. by rewrite N.eqb_refl.
  - rewrite Hc. cbn [app] in IH. by rewrite IH.
Qed.

Lemma match_chapter_label_sound t n :
  match_chapter_label t = Some n ->
  chapter_label (take n t) /\ (n <= length t)%nat.
Proof.
  destruct t as [| c [| d t]]; [done | done |]. cbn [match_chapter_label].
  destruct (c =? DI) eqn:Ec; [| done]. destruct (is_numeral d) eqn:Hd; [| done].
  cbn [andb]. destruct (match_numerals_hui t) as [k |] eqn:Ek; [| done].
  intros [= <-]. apply N.eqb_eq in Ec as ->.
  destruct (match_numerals_hui_sound t k Ek) as (ns & Htake & Hns & -> & Hlen).
  split; [| simpl; lia]. exists (d :: ns). simpl. rewrite Htake.
  repeat split; [done | by constructor].
Qed.

Lemma match_chapter_label_complete ns post :
  ns <> [] -> Forall (fun c => is_numeral c = true) ns ->
  match_chapter_label ([DI] ++ ns ++ [HUI] ++ post) = Some (S (S (length ns))).
Proof.
  intros Hne Hns. destruct ns as [| d ns]; [done |].
  apply Forall_cons in Hns as [Hd Hns]. cbn [app match_chapter_label length].
  rewrite N.eqb_refl, Hd. cbn [andb].
  pose proof (match_numerals_hui_complete ns post Hns) as H. cbn [app] in H.
  by rewrite H.
Qed.

(** [re.search] gives a label of the title, and no label starts in front
    of it. *)
Lemma search_chapter_label_sound t m :
  search_chapter_label t = Some m ->
  chapter_label m /\
  exists pre post,
    t = pre ++ m ++ post /\
    forall j, (j < length pre)%nat -> match_chapter_label (drop j t) = None.
Proof.
  revert m. induction t as [| c t IH]; intros m.
  - simpl. done.
  - cbn [search_chapter_label].
    destruct (match_chapter_label (c :: t)) as [n |] eqn:En.
    + intros [= <-]. destruct (match_chapter_label_sound _ _ En) as [Hl Hn].
      split; [done |]. exists [], (drop n (c :: t)). split.
      * simpl app at 1. by rewrite take_drop.
      * intros j Hj. simpl in Hj. lia.
    + intros Hs. destruct (IH m Hs) as (Hl & pre & post & -> & Hleft).
      split; [done |]. exists (c :: pre), post. split; [done |].
      intros [| j] Hj; [done |]. simpl. apply Hleft. simpl in Hj. lia.
Qed.

Lemma search_chapter_label_head t n :
  match_chapter_label t = Some n -> search_chapter_label t = Some (take n t).
Proof. intros H. destruct t; cbn [search_chapter_label]; by rewrite H. Qed.

Lemma search_chapter_label_tail c t :
  match_chapter_label (c :: t) = None ->
  search_chapter_label (c :: t) = search_chapter_label t.
Proof. intros H. cbn [search_chapter_label]. by rewrite H. Qed.

Lemma take_chapter_label ns post :
  take (S (S (length ns))) ([DI] ++ ns ++ [HUI] ++ post) = [DI] ++ ns ++ [HUI].
Proof.
  cbn [app take]. f_equal. change (ns ++ HUI :: post) with (ns ++ [HUI] ++ post).
  rewrite app_assoc. apply take_app_length'. rewrite length_app. simpl. lia.
Qed.

Lemma search_chapter_label_complete pre ns post :
  ns <> [] -> Forall (fun c => is_numeral c = true) ns ->
  exists m' pre' post',
    search_chapter_label (pre ++ [DI] ++ ns ++ [HUI] ++ post) = Some m' /\
    pre ++ [DI] ++ ns ++ [HUI] ++ post = pre' ++ m' ++ post' /\
    (length pre' <= length pre)%nat.
Proof.
  intros Hne Hns. induction pre as [| c pre IH].
  - pose proof (match_chapter_label_complete ns post Hne Hns) as Hm.
    exists ([DI] ++ ns ++ [HUI]), [], post.
    rewrite !app_nil_l. split; [| split; [by rewrite <- !app_assoc | done]].
    rewrite (search_chapter_label_head _ _ Hm). f_equal. apply take_chapter_label.
  - rewrite <- app_comm_cons.
    destruct (match_chapter_label (c :: pre ++ [DI] ++ ns ++ [HUI] ++ post))
      as [n |] eqn:En.
    + exists (take n (c :: pre ++ [DI] ++ ns ++ [HUI] ++ post)), [],
        (drop n (c :: pre ++ [DI] ++ ns ++ [HUI] ++ post)).
      split; [by apply search_chapter_label_head |]. split; [| simpl; lia].
      rewrite app_nil_l. by rewrite take_drop.
    + destruct IH as (m' & pre' & post' & Hs & Heq & Hlen).
      exists m', (c :: pre'), post'. split; [by rewrite search_chapter_label_tail |].
      split; [by rewrite Heq | simpl; lia].
Qed.

Lemma search_chapter_label_label m :
  chapter_label m -> search_chapter_label m = Some m.
Proof.
  intros (ns & -> & Hne & Hns).
  pose proof (match_chapter_label_complete ns [] Hne Hns) as Hm.
  rewrite app_nil_r in Hm.
  rewrite (search_chapter_label_head _ _ Hm). f_equal.
  apply take_ge. rewrite !length_app. simpl. lia.
Qed.


(** X1.  When the title contains a chapter label (第, one or more numerals,
    回), [clean_chapter_title] returns a label of that form cut out of the
    title, the leftmost one: no label starts in front of it. *)
Theorem clean_chapter_title_finds_label (title pre ns post : str) :
  title = pre ++ [DI] ++ ns ++ [HUI] ++ post ->
  ns <> [] ->
  Forall (fun c => is_numeral c = true) ns ->
  chapter_label (clean_chapter_title title) /\
  exists pre' post',
    title = pre' ++ clean_chapter_title title ++ post' /\
    (length pre' <= length pre)%nat /\
    forall j, (j < length pre')%nat -> match_chapter_label (drop j title) = None.
Proof.
  intros -> Hne Hns.
  destruct (search_chapter_label_complete pre ns post Hne Hns)
    as (m & _ & _ & Hs & _ & _).
  unfold clean_chapter_title. rewrite Hs.
  destruct (search_chapter_label_sound _ _ Hs) as (Hl & pre' & post' & Heq & Hleft).
  split; [done |]. exists pre', post'. split; [done |]. split; [| done].
  destruct (decide (length pre' <= length pre)%nat) as [| Hgt]; [done |].
  assert (Hj : (length pre < length pre')%nat) by lia.
  specialize (Hleft _ Hj). rewrite drop_app_length in Hleft.
  by rewrite (match_chapter_label_complete ns post Hne Hns) in Hleft.
Qed.

Lemma clean_chapter_title_finds_label_witness :
  let title := u "%{{第三十四回}} 情中情因情感妹妹" in
  chapter_label (clean_chapter_title title) /\
  exists pre' post',
    title = pre' ++ clean_chapter_title title ++ post' /\
    (length pre' <= length (u "%{{"))%nat /\
    forall j, (j < length pre')%nat -> match_chapter_label (drop j title) = None.
Proof.
  intros title.
  apply (clean_chapter_title_finds_label title (u "%{{") (u "三十四")
           (u "}} 情中情因情感妹妹")).
  - vm_compute. reflexivity.
  - discriminate.
  - vm_compute. repeat constructor.
Defined.

Example clean_chapter_title_examples :
  clean_chapter_title (u "%{{第三十四回}} 情中情因情感妹妹") = u "第三十四回" /\
  clean_chapter_title (u "%{{甄士隐}}梦幻识通灵}{") = u "甄士隐梦幻识通灵" /\
  clean_chapter_title (u "未知") = u "未知".
Proof. repeat split; vm_compute; reflexivity. Qed.

(** X2.  On a title that contains a chapter label a second application of
    [clean_chapter_title] changes nothing. *)
Theorem clean_chapter_title_idempotent (title pre ns post : str) :
  title = pre ++ [DI] ++ ns ++ [HUI] ++ post ->
  ns <> [] ->
  Forall (fun c => is_numeral c = true) ns ->
  clean_chapter_title (clean_chapter_title title) = clean_chapter_title title.
Proof.
  intros -> Hne Hns.
  destruct (search_chapter_label_complete pre ns post Hne Hns)
    as (m & _ & _ & Hs & _ & _).
  unfold clean_chapter_title at 2 3. rewrite Hs.
  destruct (search_chapter_label_sound _ _ Hs) as (Hl & _).
  unfold clean_chapter_title. by rewrite (search_chapter_label_label m Hl).
Qed.

Lemma clean_chapter_title_idempotent_witness :
  clean_chapter_title (clean_chapter_title (u "卷一 第五回 游幻境"))
  = clean_chapter_title (u "卷一 第五回 游幻境").
Proof.
  apply (clean_chapter_title_idempotent _ (u "卷一 ") (u "五") (u " 游幻境")).
  - vm_compute. reflexivity.
  - discriminate.
  - vm_compute. repeat constructor.
Defined.

(** Without a label the three removals run once each, and a removal can
    put a label together: a second application then returns the label. *)
Example clean_chapter_title_not_idempotent :
  clean_chapter_title (u "卷一第}}五回") = u "卷一第五回" /\
  clean_chapter_title (u "卷一第五回") = u "第五回".
Proof. split; vm_compute; reflexivity. Qed.

(** X3.  [clean_chapter_title] never returns more characters than it is
    given. *)
Theorem clean_chapter_title_never_longer (title : str) :
  (length (clean_chapter_title title) <= length title)%nat.
Proof.
  unfold clean_chapter_title.
  destruct (search_chapter_label title) as [m |] eqn:Hs.
  - destruct (search_chapter_label_sound _ _ Hs) as (_ & pre & post & Heq & _).
    apply (f_equal length) in Heq. rewrite !length_app in Heq. lia.
  - pose proof (shrinks_le _ title (replace_shrinks (u "%{{"))) as H1.
    pose proof (shrinks_le _ (replace title (u "%{{") []) (replace_shrinks (u "}}"))) as H2.
    pose proof (shrinks_le _ (replace (replace title (u "%{{") []) (u "}}") [])
                  (replace_shrinks (u "}{"))) as H3.
    cbv beta in H1, H2, H3. lia.
Qed.


(** *** The history *)

Lemma handle_submit_messages (rag : HongLouRAG) (k_value : Z) (submit : bool)
    (user_input : str) (st : SessionState) :
  messages (handle_submit rag k_value submit user_input st).1 = messages st \/
  exists reply,
    role reply = Assistant /\
    messages (handle_submit rag k_value submit user_input st).1
    = messages st ++ [mkMessage User user_input None; reply].
Proof.
  unfold handle_submit. destruct (submit && truthy user_input); [| by left].
  right. rewrite Session.answer_turn_unfold.
  destruct (generate rag user_input) as [[q raw srcs ctx | err] | e]; cbn [fst messages].
  - eexists. split; [| by rewrite <- app_assoc]. done.
  - exists (apology (KeyError "answer")). split; [done | by rewrite <- app_assoc].
  - exists (apology e). split; [done | by rewrite <- app_assoc].
Qed.

Lemma export_text_from (acc : str) (msgs : list Message) :
  foldl (fun export_text msg => export_text ++ export_block msg) acc msgs
  = acc ++ export_text msgs.
Proof.
  unfold export_text. revert acc. induction msgs as [| m msgs IH] using rev_ind; intros acc.
  - simpl. by rewrite app_nil_r.
  - rewrite !foldl_snoc, IH. by rewrite app_assoc.
Qed.

Lemma export_text_app (msgs1 msgs2 : list Message) :
  export_text (msgs1 ++ msgs2) = export_text msgs1 ++ export_text msgs2.
Proof.
  unfold export_text at 1. rewrite foldl_app. fold (export_text msgs1).
  apply export_text_from.
Qed.

Lemma export_text_pair (q : str) (a : Message) :
  role a = Assistant ->
  export_text [mkMessage User q None; a]
  = u "问：" ++ q ++ [NL; NL] ++ u "答：" ++ clean_answer (content a) ++ [NL; NL].
Proof.
  intros Hrole. unfold export_text. cbn [foldl]. unfold export_block at 1 2.
  rewrite Hrole. cbn [role content]. rewrite app_nil_l. by rewrite <- !app_assoc.
Qed.

(** X4.  Whatever questions are asked and however often the history is
    cleared, the history consists of question turns each followed by
    exactly one assistant turn, and the export lists every question of
    the history followed by its answer, sanitized once more. *)
Theorem history_is_question_answer_pairs (actions : list action) :
  exists turns : list (str * Message),
    question_answer_pairs (messages (run_session actions)) turns /\
    length (messages (run_session actions)) = (2 * length turns)%nat /\
    export_text (messages (run_session actions))
    = concat ((fun qa => u "问：" ++ qa.1 ++ [NL; NL]
                         ++ u "答：" ++ clean_answer (content qa.2) ++ [NL; NL])
              <$> turns).
Proof.
  unfold run_session. induction actions as [| a actions IH] using rev_ind.
  - exists []. split; [split; [done | constructor] | done].
  - rewrite foldl_snoc. destruct IH as (turns & [Hmsgs Hroles] & Hlen & Hexp).
    set (st := foldl run_action initial_session actions) in *.
    assert (Hsame : messages (run_action st a) = messages st ->
      exists turns0 : list (str * Message),
        question_answer_pairs (messages (run_action st a)) turns0 /\
        length (messages (run_action st a)) = (2 * length turns0)%nat /\
        export_text (messages (run_action st a))
        = concat ((fun qa => u "问：" ++ qa.1 ++ [NL; NL]
                             ++ u "答：" ++ clean_answer (content qa.2) ++ [NL; NL])
                  <$> turns0)).
    { intros ->. by exists turns. }
    destruct a as [rag k_value submit user_input |]; cbn [run_action].
    + destruct (handle_submit_messages rag k_value submit user_input st)
        as [Heq | (reply & Hrole & Heq)]; [by apply Hsame |].
      rewrite Heq. exists (turns ++ [(user_input, reply)]). split; [split |].
      * rewrite bind_app, bind_singleton. by rewrite Hmsgs.
      * apply Forall_app. split; [done |]. by constructor.
      * rewrite !length_app, Hlen. simpl. split; [lia |].
        rewrite export_text_app, Hexp, fmap_app, concat_app. f_equal.
        rewrite (export_text_pair user_input reply Hrole).
        cbn [fmap list_fmap concat fst snd]. by rewrite app_nil_r.
    + exists []. split; [split; [done | constructor] | done].
Qed.

(** Two questions, a clearing, and one more question: one pair is left. *)
Example history_example :
  let rag := mkRAG (fun _ _ => Ok []) (fun _ => Ok (u "【回答】见于第二十七回。【结束】")) in
  export_text (messages (run_session
    [Ask rag 3 true (u "宝玉是谁"); Ask rag 3 true []; Ask rag 3 true (u "宝钗是谁");
     ClearHistory; Ask rag 3 true (u "黛玉为何葬花")]))
  = u "问：黛玉为何葬花

答：见于第二十七回。

".
Proof. vm_compute. reflexivity. Qed.

(** X5.  When the fallback replaces a short cleaned text by the first 500
    characters of the raw answer, the page still runs [clean_answer] on what
    was stored: it shows the sanitized form of those 500 characters, and for
    a raw answer of at most 500 characters that is the short cleaned text
    again, so that the fallback does not reach the page. *)
Theorem fallback_is_cleaned_again (rag : HongLouRAG) (k_value : Z)
    (user_input : str) (st : SessionState)
    (query raw_answer : str) (sources : list Document) (context : str) :
  truthy user_input = true ->
  generate rag user_input = Ok (GenAnswer query raw_answer sources context) ->
  (length (clean_answer raw_answer) < 50)%nat ->
  (100 < length raw_answer)%nat ->
  exists reply,
    last (messages (handle_submit rag k_value true user_input st).1) = Some reply /\
    content reply = take 500 raw_answer /\
    shown_text reply = clean_answer (take 500 raw_answer) /\
    ((length raw_answer <= 500)%nat ->
       shown_text reply = clean_answer raw_answer /\
       (length (shown_text reply) < 50)%nat).
Proof.
  intros Hin Hgen Hshort Hlong.
  rewrite Session.handle_submit_unfold by done.
  rewrite Session.answer_turn_unfold, Hgen.
  eexists. split; [cbn; by rewrite last_snoc |].
  assert (Hfb : with_fallback raw_answer (clean_answer raw_answer) = take 500 raw_answer).
  { unfold with_fallback. apply Nat.ltb_lt in Hshort, Hlong. by rewrite Hshort, Hlong. }
  cbn [content]. unfold shown_text. cbn [role content]. rewrite Hfb.
  split; [done |]. split; [done |]. intros Hle.
  rewrite take_ge by lia. done.
Qed.

Lemma fallback_is_cleaned_again_witness :
  let raw_answer := END_MARKER ++ replicate 120 97 in
  let rag := mkRAG (fun _ _ => Ok []) (fun _ => Ok raw_answer) in
  let st := mkSession [] None in
  exists reply,
    last (messages (handle_submit rag 3 true (u "黛玉为何葬花") st).1) = Some reply /\
    content reply = take 500 raw_answer /\
    shown_text reply = clean_answer (take 500 raw_answer) /\
    ((length raw_answer <= 500)%nat ->
       shown_text reply = clean_answer raw_answer /\
       (length (shown_text reply) < 50)%nat).
Proof.
  intros raw_answer rag st.
  apply (fallback_is_cleaned_again rag 3 (u "黛玉为何葬花") st
           (u "黛玉为何葬花") raw_answer [] []).
  - reflexivity.
  - vm_compute. reflexivity.
  - vm_compute. lia.
  - vm_compute. lia.
Defined.

End ViewFacts.

(* ===================================================================== *)
(** ** What [generate] returns *)
(* ===================================================================== *)

Module GenerateFacts.

Import Props PyStrFacts Engine App.

Lemma replace_prefix (old t new : str) :
  old <> [] -> replace (old ++ t) old new = new ++ replace t old new.
Proof.
  intros Hold. destruct old as [| a old]; [done |].
  rewrite <- app_comm_cons, replace_cons by done.
  rewrite app_comm_cons, startswith_prefix. cbn [length pred].
  by rewrite drop_app_length.
Qed.

Lemma prompt_nonempty (context query : str) :
  prompt_head ++ context ++ prompt_mid ++ query ++ prompt_tail <> [].
Proof. unfold prompt_head. rewrite <- app_comm_cons. discriminate. Qed.

Lemma generate_answer_inv (self : HongLouRAG) (query q raw : str)
    (srcs : list Document) (ctx : str) :
  generate self query = Ok (GenAnswer q raw srcs ctx) ->
  exists docs,
    similarity_search self query 4 = Ok docs /\
    srcs = take 3 (dedup docs) /\ q = query /\ ctx = build_context srcs.
Proof.
  rewrite Session.generate_unfold. unfold retrieve.
  destruct (similarity_search self query 4) as [docs | e]; [| done].
  cbn [mbind result_bind]. cbv zeta. unfold finish_generate.
  destruct (llm self _) as [response | e]; [| done].
  intros [= <- _ <- <-]. by exists docs.
Qed.

(** X6.  When the model repeats the prompt in front of its reply, and the
    prompt does not occur again behind it, the answer is the reply without
    the prompt, stripped; a reply that does not contain the prompt is
    returned as it is, white space included. *)
Theorem generate_removes_echoed_prompt (self : HongLouRAG) (query : str)
    (docs : list Document) (response : str) :
  retrieve self query 4 = Ok docs ->
  let context := build_context docs in
  let prompt := prompt_head ++ context ++ prompt_mid ++ query ++ prompt_tail in
  llm self prompt = Ok response ->
  (str_in prompt response = false ->
     generate self query = Ok (GenAnswer query response docs context)) /\
  (forall t, response = prompt ++ t -> str_in prompt t = false ->
     generate self query = Ok (GenAnswer query (strip t) docs context)).
Proof.
  intros Hdocs context prompt Hllm.
  rewrite (Prompt.generate_ok self query docs Hdocs). cbv zeta.
  fold context. fold prompt. rewrite Hllm. unfold finish_generate. split.
  - by intros ->.
  - intros t -> Ht.
    assert (Hin : str_in prompt (prompt ++ t) = true).
    { apply str_in_true. exists 0%nat. apply index_startswith, startswith_prefix. }
    rewrite Hin. rewrite replace_prefix by apply prompt_nonempty.
    rewrite replace_absent; [done | apply prompt_nonempty | by apply str_in_false].
Qed.

Lemma generate_removes_echoed_prompt_witness :
  let self := mkRAG (fun _ _ => Ok [])
                (fun prompt => Ok (prompt ++ u " 见于第二十七回。 ")) in
  let query := u "黛玉为何葬花" in
  generate self query
  = Ok (GenAnswer query (strip (u " 见于第二十七回。 ")) [] (build_context [])).
Proof.
  intros self query.
  refine (proj2 (generate_removes_echoed_prompt self query []
                   ((prompt_head ++ build_context [] ++ prompt_mid ++ query
                     ++ prompt_tail) ++ u " 见于第二十七回。 ") eq_refl _)
            (u " 见于第二十七回。 ") _ _);
    vm_compute; reflexivity.
Defined.

(** X7.  An answer of [generate] cites at most three passages, of pairwise
    different chapter numbers; its context block has one part per cited
    passage, and the assistant turn stored for it lists as many sources. *)
Theorem answer_cites_at_most_three (rag : HongLouRAG) (k_value : Z)
    (user_input : str) (st : SessionState)
    (query raw_answer : str) (sources : list Document) (context : str) :
  truthy user_input = true ->
  generate rag user_input = Ok (GenAnswer query raw_answer sources context) ->
  (length sources <= 3)%nat /\
  NoDup (chapter_of <$> sources) /\
  context = build_context sources /\
  length (context_parts sources) = length sources /\
  exists reply cited,
    last (messages (handle_submit rag k_value true user_input st).1) = Some reply /\
    msg_sources reply = Some cited /\
    length cited = length sources.
Proof.
  intros Hin Hgen.
  destruct (generate_answer_inv _ _ _ _ _ _ Hgen) as (docs & Hs & -> & -> & ->).
  destruct (Retriever.dedup_spec docs) as (_ & Hnd & _ & _).
  split; [rewrite length_take; lia |].
  split; [rewrite fmap_take; by apply Retriever.NoDup_take |].
  split; [done |]. split; [apply length_imap |].
  rewrite Session.handle_submit_unfold by done.
  rewrite Session.answer_turn_unfold, Hgen.
  eexists _, _. split; [cbn; by rewrite last_snoc |].
  split; [reflexivity |]. by rewrite length_fmap.
Qed.

Lemma answer_cites_at_most_three_witness :
  let doc_of c := mkDocument (u "原文") {[ "chapter" := VInt c ]} in
  let rag := mkRAG (fun _ _ => Ok (map doc_of [3; 3; 5; 8]%Z)) (fun _ => Ok (u "答")) in
  let sources := map doc_of [3; 5; 8]%Z in
  (length sources <= 3)%nat /\
  NoDup (chapter_of <$> sources) /\
  build_context sources = build_context sources /\
  length (context_parts sources) = length sources /\
  exists reply cited,
    last (messages (handle_submit rag 3 true (u "问") (mkSession [] None)).1)
    = Some reply /\
    msg_sources reply = Some cited /\
    length cited = length sources.
Proof.
  intros doc_of rag sources.
  apply (answer_cites_at_most_three rag 3 (u "问") (mkSession [] None)
           (u "问") (u "答") sources (build_context sources)).
  - reflexivity.
  - vm_compute. reflexivity.
Defined.

End GenerateFacts.

(* ===================================================================== *)
(** ** Building the index *)
(* ===================================================================== *)

Module VectorizeFacts.

Import Props Vectorize.

Section Batches.

Context {store : Type} (faiss : VectorStore store) (stored : store -> list Document).
Hypothesis laws : store_laws faiss stored.

Lemma build_steps_stored (documents : list Document) (count start : nat) (vs : store) :
  stored vs = take start documents ->
  exists vs',
    foldl (build_step faiss documents) (Some vs) (range_from start batch_size count)
    = Some vs' /\
    stored vs' = take (start + count * batch_size) documents.
Proof.
  revert start vs. induction count as [| count IH]; intros start vs Hvs.
  - exists vs. split; [done |]. by rewrite Nat.add_0_r.
  - cbn [range_from foldl build_step].
    destruct (IH (start + batch_size)%nat
                (add_documents faiss vs (take batch_size (drop start documents))))
      as (vs' & Hfold & Hstored).
    { rewrite (stored_add _ _ laws), Hvs. apply take_take_drop. }
    exists vs'. split; [done |]. rewrite Hstored. f_equal. lia.
Qed.

Lemma batches_cover (n : nat) : (n <= (n + batch_size - 1) / batch_size * batch_size)%nat.
Proof.
  unfold batch_size.
  pose proof (Nat.div_mod (n + 500 - 1) 500 ltac:(lia)) as Hdm.
  pose proof (Nat.mod_upper_bound (n + 500 - 1) 500 ltac:(lia)) as Hmod.
  lia.
Qed.


(** X8.  With no documents [build_index] fails: no store is ever made and
    the call on [None] raises.  With at least one document it returns a
    store that holds exactly the given documents, in their order: the
    batches of 500 lose and repeat nothing. *)
Theorem build_index_keeps_documents (documents : list Document) :
  (documents = [] /\
   build_index faiss documents
   = Raise (Exception (u "'NoneType' object has no attribute 'save_local'"))) \/
  (documents <> [] /\
   exists vs, build_index faiss documents = Ok vs /\ stored vs = documents).
Proof.
  destruct documents as [| d documents]; [left; by split | right].
  split; [done |]. unfold build_index, py_range.
  set (docs := d :: documents).
  pose proof (batches_cover (length docs)) as Hcover.
  destruct ((length docs + batch_size - 1) / batch_size)%nat as [| count] eqn:Hcount.
  { simpl in Hcover. lia. }
  cbn [range_from foldl]. unfold build_step at 2.
  destruct (build_steps_stored docs count (0 + batch_size)%nat
              (from_documents faiss (take batch_size (drop 0 docs))))
    as (vs & Hfold & Hstored).
  { by rewrite (stored_from _ _ laws), drop_0. }
  rewrite Hfold. exists vs. split; [done |]. rewrite Hstored.
  apply take_ge. lia.
Qed.

End Batches.


Lemma build_index_keeps_documents_witness :
  let faiss := mkVectorStore (list Document) (fun batch => batch)
                 (fun vs batch => vs ++ batch) in
  let documents :=
    map (fun i => mkDocument (u "原文") {[ "chapter" := VInt (Z.of_nat i) ]})
        (seq 0 1001) in
  (documents = [] /\
   build_index faiss documents
   = Raise (Exception (u "'NoneType' object has no attribute 'save_local'"))) \/
  (documents <> [] /\
   exists vs, build_index faiss documents = Ok vs /\ vs = documents).
Proof.
  intros faiss documents.
  apply (build_index_keeps_documents faiss (fun vs => vs)).
  constructor; reflexivity.
Defined.

(** 1001 documents go in three batches, at 0, 500 and 1000. *)
Example py_range_example :
  py_range 1001 batch_size = [0; 500; 1000]%nat /\
  py_range 1000 batch_size = [0; 500]%nat /\
  py_range 0 batch_size = [].
Proof. repeat split; reflexivity. Qed.

End VectorizeFacts.

(* ===================================================================== *)
(** ** Numerals and paragraphs of the extraction step *)
(* ===================================================================== *)

Module ExtractFacts.

Import Props PyStrFacts Extract.

(** *** chinese_to_number *)

Lemma num_map_get_range (c : N) (n : Z) :
  num_map_get c = Some n -> (0 <= n <= 1000)%Z.
Proof.
  unfold num_map_get. destruct (list_find _ num_map) as [[i [c' n']] |] eqn:Hf; [| done].
  cbn [fmap option_fmap option_map snd]. intros [= <-].
  apply list_find_Some in Hf as (Hi & _ & _).
  apply list_elem_of_lookup_2 in Hi. unfold num_map in Hi.
  rewrite !elem_of_cons, elem_of_nil in Hi.
  repeat (destruct Hi as [[= -> ->] | Hi]; [lia |]). done.
Qed.

Lemma number_step_nonneg (st : Z * Z) (c : N) :
  (0 <= st.1)%Z -> (0 <= st.2)%Z ->
  (0 <= (number_step st c).1)%Z /\ (0 <= (number_step st c).2)%Z.
Proof.
  destruct st as [r t]. simpl. intros Hr Ht.
  destruct (num_map_get c) as [n |] eqn:Hn; [| done].
  apply num_map_get_range in Hn.
  destruct (10 <=? n)%Z; simpl.
  - destruct (t =? 0)%Z; split; nia.
  - destruct (0 <? t)%Z; split; nia.
Qed.

Lemma number_fold_nonneg (s : str) (st : Z * Z) :
  (0 <= st.1)%Z -> (0 <= st.2)%Z ->
  (0 <= (foldl number_step st s).1)%Z /\ (0 <= (foldl number_step st s).2)%Z.
Proof.
  revert st. induction s as [| c s IH]; intros st Hr Ht; [by split |].
  cbn [foldl]. destruct (number_step_nonneg st c Hr Ht). by apply IH.
Qed.

(** The guard on the last line never takes the other branch. *)
Lemma chinese_to_number_sum (s : str) :
  chinese_to_number s
  = ((foldl number_step (0%Z, 0%Z) s).1 + (foldl number_step (0%Z, 0%Z) s).2)%Z.
Proof.
  unfold chinese_to_number.
  destruct (number_fold_nonneg s (0%Z, 0%Z)) as [Hr Ht]; [done | done |].
  destruct (foldl number_step (0%Z, 0%Z) s) as [r t]. simpl in *.
  destruct (0 <? r + t)%Z eqn:E; [done |]. apply Z.ltb_ge in E. lia.
Qed.

(** The result part of the state only accumulates. *)
Lemma number_fold_shift (s : str) (r t : Z) :
  foldl number_step (r, t) s
  = ((r + (foldl number_step (0%Z, t) s).1)%Z, (foldl number_step (0%Z, t) s).2).
Proof.
  revert r t. induction s as [| c s IH]; intros r t.
  - simpl. f_equal. lia.
  - cbn [foldl]. unfold number_step at 2 4 6.
    destruct (num_map_get c) as [n |]; [| apply IH].
    destruct (10 <=? n)%Z.
    + rewrite (IH (r + _)%Z), (IH (0 + _)%Z). simpl. f_equal. lia.
    + apply IH.
Qed.


Lemma standard_numeral_check :
  forallb (fun n => (chinese_to_number (standard_numeral n) =? Z.of_nat n)%Z)
          (seq 1 (Z.to_nat 9999)) = true.
Proof. vm_compute. reflexivity. Qed.

(** X9.  [chinese_to_number] reads the usual numeral of every number from
    1 to 9999 as that number. *)
Theorem chinese_to_number_standard (n : Z) :
  (1 <= n <= 9999)%Z ->
  chinese_to_number (standard_numeral (Z.to_nat n)) = n.
Proof.
  intros Hn. pose proof standard_numeral_check as Hc.
  rewrite forallb_forall in Hc. specialize (Hc (Z.to_nat n)).
  rewrite Z2Nat.id in Hc by lia. apply Z.eqb_eq, Hc, in_seq. lia.
Qed.

Lemma chinese_to_number_standard_witness :
  chinese_to_number (standard_numeral (Z.to_nat 1984)) = 1984%Z.
Proof. apply chinese_to_number_standard. lia. Defined.

Example standard_numeral_examples :
  standard_numeral 10 = u "十" /\ standard_numeral 15 = u "十五" /\
  standard_numeral 105 = u "一百零五" /\ standard_numeral 110 = u "一百一十" /\
  standard_numeral 1005 = u "一千零五" /\ standard_numeral 1010 = u "一千零一十" /\
  standard_numeral 1984 = u "一千九百八十四".
Proof. repeat split; vm_compute; reflexivity. Qed.

Lemma number_fold_digits (s : str) (t : Z) :
  (0 <= t)%Z -> Forall is_digit_char s ->
  foldl number_step (0%Z, t) s
  = (0%Z, foldl (fun a c => (a * 10 + digit_value c)%Z) t s).
Proof.
  intros Ht Hs. revert t Ht. induction Hs as [| c s (n & Hn & Hlt) Hs IH]; intros t Ht.
  - done.
  - cbn [foldl]. unfold number_step at 2, digit_value at 2. rewrite Hn.
    pose proof (num_map_get_range c n Hn) as Hrange. cbn [default].
    destruct (10 <=? n)%Z eqn:E; [apply Z.leb_le in E; lia |].
    assert (Heq : (if (0 <? t)%Z then (t * 10 + n)%Z else n) = (t * 10 + n)%Z).
    { destruct (0 <? t)%Z eqn:E0; [done |]. apply Z.ltb_ge in E0. lia. }
    rewrite Heq. apply IH. unfold id. lia.
Qed.

(** X10.  A text made of digit characters only (一 to 九, 零, 〇) is read
    as the decimal number with these digits. *)
Theorem chinese_to_number_digits (s : str) :
  Forall is_digit_char s ->
  chinese_to_number s = foldl (fun a c => (a * 10 + digit_value c)%Z) 0%Z s.
Proof.
  intros Hs. rewrite chinese_to_number_sum.
  rewrite (number_fold_digits s 0%Z) by done. done.
Qed.

Lemma chinese_to_number_digits_witness :
  chinese_to_number (u "二〇二四")
  = foldl (fun a c => (a * 10 + digit_value c)%Z) 0%Z (u "二〇二四").
Proof.
  apply chinese_to_number_digits.
  replace (u "二〇二四") with [ch "二"; ch "〇"; ch "二"; ch "四"]
    by (vm_compute; reflexivity).
  repeat constructor; eexists; (split; [vm_compute; reflexivity | lia]).
Defined.

Lemma number_fold_filter (s : str) (st : Z * Z) :
  foldl number_step st (filter (fun c => is_Some (num_map_get c)) s)
  = foldl number_step st s.
Proof.
  revert st. induction s as [| c s IH]; intros st; [done |].
  rewrite filter_cons. destruct (decide (is_Some (num_map_get c))) as [Hc | Hc].
  - cbn [foldl]. apply IH.
  - cbn [foldl]. rewrite IH. f_equal. unfold number_step. destruct st as [r t].
    destruct (num_map_get c) as [n |]; [| done]. exfalso. apply Hc. by eexists.
Qed.

(** X11.  Characters that are not in the table do not count: the text
    without them gives the same number. *)
Theorem chinese_to_number_ignores_unknown (s : str) :
  chinese_to_number (filter (fun c => is_Some (num_map_get c)) s)
  = chinese_to_number s.
Proof. unfold chinese_to_number. by rewrite number_fold_filter. Qed.

(** X12.  A unit (十, 百 or 千) closes what stands in front of it: the
    number of a text that goes on behind a unit is the number of the part
    up to the unit plus the number of the rest. *)
Theorem chinese_to_number_after_unit (a b : str) (unit : N) (n : Z) :
  num_map_get unit = Some n -> (10 <= n)%Z ->
  chinese_to_number (a ++ [unit] ++ b)
  = (chinese_to_number (a ++ [unit]) + chinese_to_number b)%Z.
Proof.
  intros Hn Hten. rewrite !chinese_to_number_sum.
  rewrite app_assoc, (foldl_app _ (a ++ [unit]) b). rewrite foldl_snoc.
  destruct (foldl number_step (0%Z, 0%Z) a) as [r t].
  assert (Hstep : number_step (r, t) unit
                  = ((r + (if (t =? 0)%Z then 1 else t) * n)%Z, 0%Z)).
  { unfold number_step. rewrite Hn. apply Z.leb_le in Hten. by rewrite Hten. }
  rewrite Hstep, number_fold_shift. cbn [fst snd]. lia.
Qed.

Lemma chinese_to_number_after_unit_witness :
  chinese_to_number (u "三" ++ [ch "百"] ++ u "二十一")
  = (chinese_to_number (u "三" ++ [ch "百"]) + chinese_to_number (u "二十一"))%Z.
Proof.
  apply (chinese_to_number_after_unit _ _ _ 100); [reflexivity | lia].
Defined.

(** What the function makes of a chapter heading, of 十 alone, of a
    colloquial form and of a unit it does not know. *)
Example chinese_to_number_examples :
  chinese_to_number (u "第三十四回") = 34%Z /\
  chinese_to_number (u "十") = 10%Z /\
  chinese_to_number (u "二百五") = 205%Z /\
  chinese_to_number (u "一万") = 1%Z /\
  chinese_to_number (u "回") = 0%Z.
Proof. repeat split; vm_compute; reflexivity. Qed.


(** *** split_paragraphs *)

Lemma elem_of_lstrip (x : N) (s : str) : x ∈ lstrip s -> x ∈ s.
Proof.
  induction s as [| c s IH]; [done |]. simpl.
  destruct (isspace c); [| done]. intros H. right. by apply IH.
Qed.

Lemma elem_of_rstrip (x : N) (s : str) : x ∈ rstrip s -> x ∈ s.
Proof.
  induction s as [| c s IH]; [done |]. simpl.
  destruct (rstrip s) as [| a r] eqn:E.
  - destruct (isspace c); [by intros ?%elem_of_nil |].
    intros ->%list_elem_of_singleton. left.
  - intros [-> | H]%elem_of_cons; [left | right; by apply IH].
Qed.

Lemma elem_of_strip (x : N) (s : str) : x ∈ strip s -> x ∈ s.
Proof. intros H. by apply elem_of_lstrip, elem_of_rstrip. Qed.

Lemma strip_fixed_parts (s : str) : strip s = s -> lstrip s = s /\ rstrip s = s.
Proof.
  apply (Sanitizer.shrinks_fix_both lstrip rstrip s lstrip_shrinks rstrip_shrinks).
Qed.

Lemma lstrip_fixed_head (s : str) : lstrip s = s -> head_solid s.
Proof.
  destruct s as [| c s]; [done |]. simpl. destruct (isspace c); [| done].
  intros H. pose proof (shrinks_le _ s lstrip_shrinks) as Hle.
  rewrite H in Hle. simpl in Hle. lia.
Qed.

Lemma strip_app_fixed (a b : str) :
  a <> [] -> strip a = a -> b <> [] -> strip b = b -> strip (a ++ b) = a ++ b.
Proof.
  intros Ha Hsa Hb Hsb.
  destruct (strip_fixed_parts a Hsa) as [Hla _].
  destruct (strip_fixed_parts b Hsb) as [_ Hrb].
  unfold strip. rewrite head_solid_lstrip.
  - rewrite rstrip_app_solid by (by rewrite Hrb). by rewrite Hrb.
  - apply lstrip_fixed_head in Hla. by destruct a.
Qed.

Lemma index_single_None (x : N) (s : str) : index s [x] = None -> x ∉ s.
Proof.
  induction s as [| c s IH]; [intros _ ?%elem_of_nil; done |].
  intros [Hs Hi]%index_cons_None. simpl in Hs. rewrite andb_true_r in Hs.
  apply N.eqb_neq in Hs. intros [-> | H]%elem_of_cons; [done | by apply IH].
Qed.

Lemma index_single_take (x : N) (s : str) (i : nat) :
  index s [x] = Some i -> x ∉ take i s.
Proof.
  revert i. induction s as [| c s IH]; intros i; [done |]. cbn [index].
  destruct (startswith (c :: s) [x]) eqn:Hs.
  - intros [= <-]. simpl. by intros ?%elem_of_nil.
  - destruct (index s [x]) as [j |] eqn:Hj; [| done]. intros [= <-].
    simpl in Hs. rewrite andb_true_r in Hs. apply N.eqb_neq in Hs.
    simpl. intros [-> | H]%elem_of_cons; [done | by apply (IH j)].
Qed.

(** No part of [s.split(x)], for a one-character [x], contains [x]. *)
Lemma split_single_parts (x : N) (s : str) :
  Forall (fun part => x ∉ part) (split s [x]).
Proof.
  remember (length s) as len eqn:Hl. revert s Hl.
  induction (lt_wf len) as [len _ IH]. intros s ->.
  destruct (index s [x]) as [i |] eqn:Hi.
  - rewrite (split_present s [x] i) by done. constructor.
    + by apply index_single_take.
    + apply (IH (length (drop (i + length [x]) s))); [| done].
      pose proof (index_bound _ _ _ Hi) as Hb. rewrite length_drop. simpl in *. lia.
  - rewrite split_absent by done. constructor; [| constructor].
    by apply index_single_None.
Qed.

(** What the loop has established after the lines [lines]: the paragraphs
    closed so far are tidy, the open one is empty or tidy, and together
    they hold the stripped lines in their order. *)
Lemma paragraph_loop_invariant (lines : list str) :
  Forall (fun line => NL ∉ line) lines ->
  forall paragraphs current,
    foldl paragraph_step ([], []) lines = (paragraphs, current) ->
    Forall tidy_paragraph paragraphs /\
    (current = [] \/ tidy_paragraph current) /\
    concat paragraphs ++ current = concat (strip <$> lines).
Proof.
  induction lines as [| line lines IH] using rev_ind; intros Hlines ps cur.
  - intros [= <- <-]. split; [constructor |]. split; [by left | done].
  - apply Forall_app in Hlines as [Hlines Hline]. rewrite Forall_singleton in Hline.
    rewrite foldl_snoc.
    destruct (foldl paragraph_step ([], []) lines) as [ps0 cur0] eqn:E0.
    destruct (IH Hlines ps0 cur0 eq_refl) as (Hps & Hcur & Hcat).
    rewrite fmap_app, concat_app. cbn [fmap list_fmap concat].
    rewrite app_nil_r, <- Hcat. unfold paragraph_step.
    assert (Htidy : strip line <> [] -> tidy_paragraph (strip line)).
    { intros Hne. split; [done |]. split; [| apply strip_idemp].
      intros H. by apply Hline, elem_of_strip. }
    destruct (strip line) as [| c l] eqn:Es.
    + destruct cur0 as [| c0 cur0]; intros [= <- <-].
      * split; [done |]. split; [by left | by rewrite !app_nil_r].
      * destruct Hcur as [Hcur | Hcur]; [done |].
        split; [apply Forall_app; split; [done | by constructor] |].
        split; [by left |]. rewrite concat_app. simpl. by rewrite !app_nil_r.
    + specialize (Htidy ltac:(done)).
      destruct ((200 <? length cur0)%nat && endswith cur0 FULL_STOP) eqn:Eflush;
        intros [= <- <-].
      * destruct Hcur as [-> | Hcur]; [done |].
        split; [apply Forall_app; split; [done | by constructor] |].
        split; [by right |]. rewrite concat_app. simpl.
        by rewrite app_nil_r.
      * split; [done |]. split; [| by rewrite app_assoc]. right.
        destruct Hcur as [-> | (Hne0 & Hnl0 & Hs0)]; [done |].
        destruct Htidy as (Hne & Hnl & Hs).
        split; [by destruct cur0 |]. split.
        -- intros [H | H]%elem_of_app; [by apply Hnl0 | by apply Hnl].
        -- by apply strip_app_fixed.
Qed.

(** X13.  Every paragraph that [split_paragraphs] returns is not empty,
    contains no line break and has no white space at either end. *)
Theorem split_paragraphs_tidy (text : str) :
  Forall tidy_paragraph (split_paragraphs text).
Proof.
  unfold split_paragraphs.
  destruct (foldl paragraph_step ([], []) (split text [NL])) as [ps cur] eqn:E.
  destruct (paragraph_loop_invariant _ (split_single_parts NL text) ps cur E)
    as (Hps & Hcur & _).
  destruct cur as [| c cur]; [done |].
  destruct Hcur as [Hcur | Hcur]; [done |].
  apply Forall_app. split; [done | by constructor].
Qed.

(** X14.  The paragraphs, put together, are the lines of the text with
    the white space at both ends of every line taken away: nothing else
    is lost, added or moved. *)
Theorem split_paragraphs_keeps_text (text : str) :
  concat (split_paragraphs text) = concat (strip <$> split text [NL]).
Proof.
  unfold split_paragraphs.
  destruct (foldl paragraph_step ([], []) (split text [NL])) as [ps cur] eqn:E.
  destruct (paragraph_loop_invariant _ (split_single_parts NL text) ps cur E)
    as (_ & _ & Hcat).
  rewrite <- Hcat. destruct cur as [| c cur]; [by rewrite app_nil_r |].
  rewrite concat_app. simpl. by rewrite app_nil_r.
Qed.

(** Lines are joined without a separator, a blank line closes a paragraph,
    and a text of blank lines gives no paragraph. *)
Example split_paragraphs_examples :
  split_paragraphs (u "  话说黛玉  
自那日起

 
宝玉听了
") = [u "话说黛玉自那日起"; u "宝玉听了"] /\
  split_paragraphs (u " 

  ") = [] /\
  split_paragraphs [] = [].
Proof. repeat split; vm_compute; reflexivity. Qed.

End ExtractFacts.

(* ===================================================================== *)
(** ** Chapter data, records and what retrieval makes of them *)
(* ===================================================================== *)

Module RecordsFacts.

Import Props PyStrFacts Engine Records.

Lemma elem_of_lstrip_solid (x : N) (s : str) :
  x ∈ s -> isspace x = false -> x ∈ lstrip s.
Proof.
  intros Hx Hsolid. induction s as [| c s IH]; [done |]. simpl.
  destruct (isspace c) eqn:Ec; [| done].
  apply elem_of_cons in Hx as [-> | Hx]; [congruence | by apply IH].
Qed.

Lemma elem_of_rstrip_solid (x : N) (s : str) :
  x ∈ s -> isspace x = false -> x ∈ rstrip s.
Proof.
  intros Hx Hsolid. induction s as [| c s IH]; [done |]. simpl.
  apply elem_of_cons in Hx as [-> | Hx].
  - destruct (rstrip s); [rewrite Hsolid |]; apply list_elem_of_here.
  - specialize (IH Hx). destruct (rstrip s); [by apply elem_of_nil in IH | by right].
Qed.

Lemma elem_of_strip_solid (x : N) (s : str) :
  x ∈ s -> isspace x = false -> x ∈ strip s.
Proof. intros. by apply elem_of_rstrip_solid; [apply elem_of_lstrip_solid |]. Qed.

Lemma str_in_single (x : N) (s : str) : str_in [x] s = true -> x ∈ s.
Proof.
  intros [i Hi]%str_in_true. rewrite (index_decompose _ _ _ Hi).
  apply elem_of_app. right. left.
Qed.

Lemma strip_between (a b : N) (m : str) :
  isspace a = false -> isspace b = false ->
  strip ([a] ++ m ++ [b]) = [a] ++ m ++ [b].
Proof.
  intros Ha Hb. unfold strip. rewrite head_solid_lstrip by done.
  assert (Hr : rstrip [b] = [b]) by (simpl; by rewrite Hb).
  rewrite app_assoc, rstrip_app_solid by (by rewrite Hr). by rewrite Hr.
Qed.


(** *** extract_chapter_info *)

Section Decimal.

Variable decimal : N -> option Z.
Hypothesis decimal_range : forall c d, decimal c = Some d -> (0 <= d <= 9)%Z.

Lemma digit_run_range (t : str) :
  Forall (fun d => (0 <= d <= 9)%Z) (digit_run decimal t).
Proof.
  induction t as [| c t IH]; simpl; [constructor |].
  destruct (decimal c) as [d |] eqn:Hd; [| constructor].
  constructor; [by apply (decimal_range c) | done].
Qed.

Lemma int_of_digits_nonneg (ds : list Z) :
  Forall (fun d => (0 <= d <= 9)%Z) ds -> (0 <= int_of_digits ds)%Z.
Proof.
  intros Hds. unfold int_of_digits.
  assert (H : forall a, (0 <= a)%Z ->
                (0 <= foldl (fun a d => (a * 10 + d)%Z) a ds)%Z).
  { induction Hds as [| d ds Hd Hds IH]; intros a Ha; [done |].
    cbn [foldl]. apply IH. cbv beta in Hd. lia. }
  apply H. lia.
Qed.

Lemma search_chapter_digits_range (filename : str) (ds : list Z) :
  search_chapter_digits decimal filename = Some ds ->
  Forall (fun d => (0 <= d <= 9)%Z) ds.
Proof.
  induction filename as [| c filename IH]; cbn [search_chapter_digits].
  - destruct (startswith [] CHAPTER_WORD); [| done].
    destruct (digit_run decimal (drop (length CHAPTER_WORD) [])) eqn:E; [done |].
    intros [= <-]. rewrite <- E. apply digit_run_range.
  - destruct (startswith (c :: filename) CHAPTER_WORD).
    + destruct (digit_run decimal (drop (length CHAPTER_WORD) (c :: filename))) eqn:E;
        [exact IH |].
      intros [= <-]. rewrite <- E. apply digit_run_range.
    + exact IH.
Qed.

Lemma search_chapter_digits_absent (filename : str) :
  str_in CHAPTER_WORD filename = false ->
  search_chapter_digits decimal filename = None.
Proof.
  intros H%str_in_false. induction filename as [| c filename IH].
  - reflexivity.
  - apply index_cons_None in H as [Hs Hi]. cbn [search_chapter_digits].
    rewrite Hs. by apply IH.
Qed.

(** X15.  Whatever the file holds and is called, the chapter number is not
    negative and the title is not empty and has no white space at either
    end; a file whose name does not contain [chapter] gets the number 0 and
    the title 未知回目. *)
Theorem chapter_info_well_formed (content filename : str) :
  let info := extract_chapter_info decimal content filename in
  (0 <= num info)%Z /\
  title info <> [] /\
  strip (title info) = title info /\
  (str_in CHAPTER_WORD filename = false ->
   info = {| num := 0; title := UNKNOWN_TITLE |}).
Proof.
  unfold extract_chapter_info.
  destruct (search_chapter_digits decimal filename) as [ds |] eqn:Hs.
  - pose proof (int_of_digits_nonneg ds (search_chapter_digits_range _ _ Hs)) as Hnum.
    destruct (find names_chapter (take 10 (split content [NL]))) as [line |] eqn:Hf;
      cbn [num title].
    + apply find_some in Hf as [_ Hline].
      apply andb_true_iff in Hline as [Hdi%str_in_single _].
      assert (Hin : View.DI ∈ strip line) by by apply elem_of_strip_solid.
      split; [done |]. split; [by destruct (strip line); [apply elem_of_nil in Hin |] |].
      split; [apply strip_idemp |].
      intros Hno. by rewrite search_chapter_digits_absent in Hs.
    + split; [done |]. split; [done |]. split; [by apply strip_between |].
      intros Hno. by rewrite search_chapter_digits_absent in Hs.
  - cbn [num title]. repeat split; done.
Qed.

End Decimal.


Lemma chapter_info_well_formed_witness :
  let info := extract_chapter_info ascii_decimal
                (u "% 红楼梦
  第三回 托内兄如海荐西宾  
却说雨村忙回头看时") (u "chapter003.tex") in
  (0 <= num info)%Z /\
  title info <> [] /\
  strip (title info) = title info /\
  (str_in CHAPTER_WORD (u "chapter003.tex") = false ->
   info = {| num := 0; title := UNKNOWN_TITLE |}).
Proof.
  apply (chapter_info_well_formed ascii_decimal).
  intros c d. unfold ascii_decimal.
  destruct ((48 <=? c) && (c <=? 57)) eqn:E; [| done]. intros [= <-].
  apply andb_true_iff in E as [E1%N.leb_le E2%N.leb_le]. lia.
Defined.

(** The number comes from the file name, the title from the first of the
    first ten lines that has both 第 and 回; without such a line the title
    is made from the number. *)
Example extract_chapter_info_examples :
  extract_chapter_info ascii_decimal (u "% 红楼梦
  第三回 托内兄如海荐西宾  
却说雨村忙回头看时") (u "chapter003.tex")
  = {| num := 3; title := u "第三回 托内兄如海荐西宾" |} /\
  extract_chapter_info ascii_decimal (u "却说雨村") (u "my_chapter_chapter12b.tex")
  = {| num := 12; title := u "第12回" |} /\
  extract_chapter_info ascii_decimal (u "第三回") (u "preface.tex")
  = {| num := 0; title := u "未知回目" |}.
Proof. repeat split; vm_compute; reflexivity. Qed.

(** *** The records of one file *)

Lemma body_record_spec info file_name idx para r :
  body_record info file_name idx para = Some r ->
  rec_metadata r = record_metadata info TYPE_BODY file_name /\
  rec_content r = strip para /\ (20 <= length (rec_content r))%nat.
Proof.
  unfold body_record. destruct (length (strip para) <? 20)%nat eqn:E; [done |].
  intros [= <-]. apply Nat.ltb_ge in E. done.
Qed.

Lemma comment_record_spec info file_name idx comment r :
  comment_record info file_name idx comment = Some r ->
  rec_metadata r = record_metadata info TYPE_COMMENT file_name /\
  rec_content r = strip comment /\ (5 <= length (rec_content r))%nat.
Proof.
  unfold comment_record. destruct (length (strip comment) <? 5)%nat eqn:E; [done |].
  intros [= <-]. apply Nat.ltb_ge in E. done.
Qed.

Lemma build_documents_inv info file_name paragraphs comments r :
  r ∈ build_documents info file_name paragraphs comments ->
  (exists idx para, body_record info file_name idx para = Some r) \/
  (exists idx comment, comment_record info file_name idx comment = Some r).
Proof.
  unfold build_documents. intros [H | H]%elem_of_app;
    apply list_elem_of_omap in H as (o & Ho & Hr);
    apply elem_of_lookup_imap in Ho as (idx & x & -> & _); [left | right]; eauto.
Qed.

Lemma record_metadata_lookup info type file_name :
  record_metadata info type file_name !! "chapter" = Some (VInt (num info)) /\
  record_metadata info type file_name !! "chapter_title" = Some (VStr (title info)) /\
  record_metadata info type file_name !! "type" = Some (VStr type) /\
  record_metadata info type file_name !! "source_file" = Some (VStr file_name).
Proof. unfold record_metadata. repeat split; by simplify_map_eq. Qed.

Lemma build_documents_record_spec (info : chapter_info) (file_name : str)
    (paragraphs comments : list str) (r : DataRecord) :
  r ∈ build_documents info file_name paragraphs comments ->
  rec_metadata r !! "chapter" = Some (VInt (num info)) /\
  rec_metadata r !! "chapter_title" = Some (VStr (title info)) /\
  rec_metadata r !! "source_file" = Some (VStr file_name) /\
  strip (rec_content r) = rec_content r /\
  ((rec_metadata r !! "type" = Some (VStr TYPE_BODY) /\
    (20 <= length (rec_content r))%nat) \/
   (rec_metadata r !! "type" = Some (VStr TYPE_COMMENT) /\
    (5 <= length (rec_content r))%nat)).
Proof.
  intros [(idx & para & H) | (idx & comment & H)]%build_documents_inv.
  - destruct (body_record_spec _ _ _ _ _ H) as (Hm & Hc & Hlen).
    destruct (record_metadata_lookup info TYPE_BODY file_name) as (H1 & H2 & H3 & H4).
    rewrite Hm, Hc. rewrite Hc in Hlen. repeat split; try done.
    + apply strip_idemp.
    + by left.
  - destruct (comment_record_spec _ _ _ _ _ H) as (Hm & Hc & Hlen).
    destruct (record_metadata_lookup info TYPE_COMMENT file_name) as (H1 & H2 & H3 & H4).
    rewrite Hm, Hc. rewrite Hc in Hlen. repeat split; try done.
    + apply strip_idemp.
    + by right.
Qed.

(** X16.  Every record that is built for a file carries the chapter number
    and the chapter title of that file and the name of the file; its text
    has no white space at either end; it is a body paragraph of at least
    20 characters or a comment of at least 5. *)
Theorem build_documents_records (info : chapter_info) (file_name : str)
    (paragraphs comments : list str) (r : DataRecord) :
  r ∈ build_documents info file_name paragraphs comments ->
  rec_metadata r !! "chapter" = Some (VInt (num info)) /\
  rec_metadata r !! "chapter_title" = Some (VStr (title info)) /\
  rec_metadata r !! "source_file" = Some (VStr file_name) /\
  strip (rec_content r) = rec_content r /\
  ((rec_metadata r !! "type" = Some (VStr TYPE_BODY) /\
    (20 <= length (rec_content r))%nat) \/
   (rec_metadata r !! "type" = Some (VStr TYPE_COMMENT) /\
    (5 <= length (rec_content r))%nat)).
Proof. apply build_documents_record_spec. Qed.

Lemma load_document_metadata (r : DataRecord) (d : Document) :
  load_document r = Ok d -> metadata d = rec_metadata r.
Proof.
  unfold load_document. destruct (rec_metadata r !! "type"); [| done].
  by intros [= <-].
Qed.

(** X17.  When all candidates of a search are documents loaded from the
    records of one file, [retrieve] returns at most one of them: they all
    carry the chapter number of the file. *)
Theorem one_passage_per_file (self : HongLouRAG) (query : str) (k : Z)
    (info : chapter_info) (file_name : str) (paragraphs comments : list str)
    (docs : list Document) :
  similarity_search self query k = Ok docs ->
  (forall d, d ∈ docs ->
     exists r, r ∈ build_documents info file_name paragraphs comments /\
               load_document r = Ok d) ->
  exists out, retrieve self query k = Ok out /\ (length out <= 1)%nat.
Proof.
  intros Hsearch Hdocs. exists (take 3 (dedup docs)).
  split; [by apply Retriever.retrieve_ok |].
  destruct (Retriever.dedup_spec docs) as (_ & Hnd & Hsub & _).
  rewrite length_take.
  assert (Hone : (length (dedup docs) <= 1)%nat); [| lia].
  apply (Retriever.same_key_at_most_one chapter_of _ (VInt (num info)) Hnd).
  intros d Hd. assert (Hin : d ∈ docs) by by eapply elem_of_sublist.
  destruct (Hdocs d Hin) as (r & Hr & Hload).
  apply Retriever.chapter_of_present.
  rewrite (load_document_metadata r d Hload).
  by destruct (build_documents_record_spec _ _ _ _ _ Hr) as (H & _).
Qed.


Lemma build_documents_records_witness :
  let info := {| num := 3; title := u "第三回 托内兄如海荐西宾" |} in
  let file_name := u "chapter003.tex" in
  let paragraphs := [u "  却说雨村忙回头看时，不是别人，乃是当日同僚一案参革的张如圭。 "; u "短"] in
  let comments := [u "[夹批] 伏下文"] in
  let r := {| rec_id := u "003-000";
              rec_content := u "却说雨村忙回头看时，不是别人，乃是当日同僚一案参革的张如圭。";
              rec_metadata := record_metadata info TYPE_BODY file_name |} in
  rec_metadata r !! "chapter" = Some (VInt (num info)) /\
  rec_metadata r !! "chapter_title" = Some (VStr (title info)) /\
  rec_metadata r !! "source_file" = Some (VStr file_name) /\
  strip (rec_content r) = rec_content r /\
  ((rec_metadata r !! "type" = Some (VStr TYPE_BODY) /\
    (20 <= length (rec_content r))%nat) \/
   (rec_metadata r !! "type" = Some (VStr TYPE_COMMENT) /\
    (5 <= length (rec_content r))%nat)).
Proof.
  intros info file_name paragraphs comments r.
  apply (build_documents_records info file_name paragraphs comments r).
  apply (list_elem_of_lookup_2 _ 0%nat). vm_compute. reflexivity.
Defined.

Example build_documents_example :
  let info := {| num := 3; title := u "第三回" |} in
  (fun r => (rec_id r, rec_content r))
    <$> build_documents info (u "chapter003.tex")
          [u "短"; u " 却说雨村忙回头看时，不是别人，乃是当日同僚一案参革的张如圭。"]
          [u "好"; u "[夹批] 伏下文"]
  = [(u "003-001", u "却说雨村忙回头看时，不是别人，乃是当日同僚一案参革的张如圭。");
     (u "003-z-001", u "[夹批] 伏下文")].
Proof. vm_compute. reflexivity. Qed.

Lemma one_passage_per_file_witness :
  let info := {| num := 3; title := u "第三回" |} in
  let file_name := u "chapter003.tex" in
  let para := u "却说雨村忙回头看时，不是别人，乃是当日同僚一案参革的张如圭。" in
  let comment := u "[夹批] 伏下文" in
  let d1 := mkDocument para (record_metadata info TYPE_BODY file_name) in
  let d2 := mkDocument (u "[脂评] " ++ comment)
              (record_metadata info TYPE_COMMENT file_name) in
  let self := mkRAG (fun _ _ => Ok [d1; d2]) (fun _ => Ok (u "答")) in
  exists out, retrieve self (u "雨村") 4 = Ok out /\ (length out <= 1)%nat.
Proof.
  intros info file_name para comment d1 d2 self.
  apply (one_passage_per_file self (u "雨村") 4 info file_name [para] [comment] [d1; d2]);
    [reflexivity |].
  intros d Hd. apply elem_of_cons in Hd as [-> | Hd].
  - exists {| rec_id := u "003-000"; rec_content := para;
              rec_metadata := record_metadata info TYPE_BODY file_name |}.
    split; [apply (list_elem_of_lookup_2 _ 0%nat) |]; vm_compute; reflexivity.
  - apply list_elem_of_singleton in Hd as ->.
    exists {| rec_id := u "003-z-000"; rec_content := comment;
              rec_metadata := record_metadata info TYPE_COMMENT file_name |}.
    split; [apply (list_elem_of_lookup_2 _ 1%nat) |]; vm_compute; reflexivity.
Defined.

End RecordsFacts.

(* ===================================================================== *)
(** ** More on retrieval, on the sanitizer and on the launcher *)
(* ===================================================================== *)

Module MoreFacts.

Import Props PyStrFacts Engine App.

(** *** retrieve *)

Lemma dedup_fold_grows (docs : list Document) (st : dedup_state) :
  exists more, (foldl dedup_step st docs).2 = st.2 ++ more.
Proof.
  revert st. induction docs as [| d docs IH]; intros st.
  - exists []. by rewrite app_nil_r.
  - cbn [foldl]. destruct (IH (dedup_step st d)) as [more Hmore].
    rewrite Hmore. destruct st as [seen uniq]. unfold dedup_step.
    destruct (decide (chapter_of d ∈ seen)); cbn [snd]; [by eexists |].
    exists ([d] ++ more). by rewrite app_assoc.
Qed.

(** X18.  The best-ranked candidate is always returned, and in first
    place. *)
Theorem retrieve_keeps_top_hit (self : HongLouRAG) (query : str) (k : Z)
    (d : Document) (rest : list Document) :
  similarity_search self query k = Ok (d :: rest) ->
  exists others, retrieve self query k = Ok (d :: others).
Proof.
  intros Hsearch. rewrite (Retriever.retrieve_ok self query k _ Hsearch).
  unfold dedup. cbn [foldl]. unfold dedup_step at 2.
  destruct (decide (chapter_of d ∈ (∅ : gset pyval))) as [Hin | _]; [set_solver |].
  destruct (dedup_fold_grows rest ({[chapter_of d]} ∪ ∅, [] ++ [d])) as [more ->].
  cbn [snd app take]. by eexists.
Qed.

Lemma retrieve_keeps_top_hit_witness :
  let doc_of c := mkDocument (u "原文") {[ "chapter" := VInt c ]} in
  let self := mkRAG (fun _ _ => Ok (map doc_of [5; 3; 5; 8]%Z)) (fun _ => Ok (u "答")) in
  exists others, retrieve self (u "问") 4 = Ok (doc_of 5%Z :: others).
Proof.
  intros doc_of self.
  apply (retrieve_keeps_top_hit self (u "问") 4 (doc_of 5%Z) (map doc_of [3; 5; 8]%Z)).
  reflexivity.
Defined.

(** X19.  The number of passages returned is the number of different
    chapter numbers among the candidates, but not more than 3. *)
Theorem retrieve_count (self : HongLouRAG) (query : str) (k : Z)
    (docs : list Document) :
  similarity_search self query k = Ok docs ->
  exists out,
    retrieve self query k = Ok out /\
    length out = (3 `min` size (list_to_set (chapter_of <$> docs) : gset pyval))%nat.
Proof.
  intros Hsearch. exists (take 3 (dedup docs)).
  split; [by apply Retriever.retrieve_ok |].
  destruct (Retriever.dedup_spec docs) as (Hcov & Hnd & _ & _).
  rewrite length_take.
  assert (Heq : (list_to_set (chapter_of <$> docs) : gset pyval)
                = list_to_set (chapter_of <$> dedup docs)).
  { apply set_eq. intros ch. rewrite !elem_of_list_to_set. apply Hcov. }
  rewrite Heq, size_list_to_set by done. by rewrite length_fmap.
Qed.

Lemma retrieve_count_witness :
  let doc_of c := mkDocument (u "原文") {[ "chapter" := VInt c ]} in
  let docs := map doc_of [5; 3; 5; 3]%Z in
  let self := mkRAG (fun _ _ => Ok docs) (fun _ => Ok (u "答")) in
  exists out,
    retrieve self (u "问") 4 = Ok out /\
    length out = (3 `min` size (list_to_set (chapter_of <$> docs) : gset pyval))%nat.
Proof.
  intros doc_of docs self.
  apply (retrieve_count self (u "问") 4 docs). reflexivity.
Defined.

(** With the four candidates [generate] asks for: two chapters twice give
    two passages. *)
Example retrieve_count_example :
  let doc_of c := mkDocument (u "原文") {[ "chapter" := VInt c ]} in
  let self := mkRAG (fun _ _ => Ok (map doc_of [5; 3; 5; 3]%Z)) (fun _ => Ok (u "答")) in
  retrieve self (u "问") 4 = Ok (map doc_of [5; 3]%Z).
Proof. vm_compute. reflexivity. Qed.


(** *** clean_answer *)

Lemma collapsed_app (pre s : str) : collapsed (pre ++ s) -> collapsed s.
Proof.
  induction pre as [| c pre IH]; [done |].
  rewrite <- app_comm_cons. intros [H _]%collapsed_cons. by apply IH.
Qed.

Lemma match_ws_nl_blank_run (ws post : str) :
  Forall (fun c => isspace c = true) ws ->
  exists n, match_ws_nl (ws ++ NL :: post) = Some n /\ (length ws < n)%nat.
Proof.
  induction 1 as [| c ws Hc Hws IH].
  - destruct (match_ws_nl (NL :: post)) as [n |] eqn:E.
    + exists n. split; [done |]. apply match_ws_nl_bound in E. simpl. lia.
    + by apply match_ws_nl_newline in E.
  - destruct IH as (n & Hn & Hlen). exists (S n).
    rewrite <- app_comm_cons, match_ws_nl_cons, Hc, Hn. split; [done | simpl; lia].
Qed.

(** X20.  The sanitized text has no white space at either end, and between
    two line breaks of it there is either nothing or some character that
    is not white space: no line of blanks, no two empty lines in a row. *)
Theorem clean_answer_tidy (raw_answer : str) :
  strip (clean_answer raw_answer) = clean_answer raw_answer /\
  forall pre ws post,
    clean_answer raw_answer = pre ++ [NL] ++ ws ++ [NL] ++ post ->
    Forall (fun c => isspace c = true) ws ->
    ws = [].
Proof.
  split; [apply Sanitizer.clean_answer_stripped |].
  intros pre ws post Heq Hws.
  pose proof (Sanitizer.clean_answer_collapsed raw_answer) as Hc.
  rewrite Heq in Hc. apply collapsed_app in Hc.
  cbn [app] in Hc. apply collapsed_cons in Hc as [_ Hc].
  destruct (match_ws_nl_blank_run ws post Hws) as (n & Hn & Hlen).
  rewrite Hn in Hc. destruct (Hc eq_refl) as [| [= ->]]; [done |].
  destruct ws; [done | simpl in Hlen; lia].
Qed.

Example clean_answer_tidy_example :
  clean_answer (u "
 一

   

二 
三
") = u "一

二 
三".
Proof. vm_compute. reflexivity. Qed.

(** *** check_python *)

Lemma endswith_last (s p : str) (c : N) :
  endswith s p = true -> last p = Some c -> last s = Some c.
Proof.
  unfold endswith. intros Hs%startswith_app Hp.
  apply (f_equal reverse) in Hs. rewrite reverse_involutive, reverse_app in Hs.
  rewrite reverse_involutive in Hs. rewrite Hs.
  destruct p as [| a p] using rev_ind; [done |].
  rewrite last_snoc in Hp. injection Hp as ->.
  by rewrite app_assoc, last_snoc.
Qed.

(** X21.  An interpreter path that does not end in the letter n or e is
    turned down, whatever stands in front: so is every path that ends in a
    version number, such as [python3]. *)
Theorem check_python_rejects (executable : str) :
  last executable <> Some (Extract.ch "n") ->
  last executable <> Some (Extract.ch "e") ->
  Launcher.check_python executable = None.
Proof.
  intros Hn He. unfold Launcher.check_python.
  destruct (endswith executable (u "python.exe")) eqn:E1.
  { exfalso. apply He. by apply (endswith_last _ _ _ E1). }
  destruct (endswith executable (u "python")) eqn:E2; [| done].
  exfalso. apply Hn. by apply (endswith_last _ _ _ E2).
Qed.

Lemma check_python_rejects_witness :
  Launcher.check_python (u "/usr/bin/python3") = None.
Proof. apply check_python_rejects; vm_compute; discriminate. Defined.

Example check_python_examples :
  Launcher.check_python (u "/opt/conda/bin/python") = Some (u "/opt/conda/bin/python") /\
  Launcher.check_python (u "C:\Python311\python.exe") = Some (u "C:\Python311\python.exe") /\
  Launcher.check_python (u "/usr/bin/python3.11") = None /\
  Launcher.check_python (u "C:\Python311\pythonw.exe") = None.
Proof. repeat split; vm_compute; reflexivity. Qed.

End MoreFacts.
